(** * The asynchronous connection layer of duckdb-wasm

    A shallow embedding of [packages/duckdb-wasm/src/parallel/async_connection.ts]:
    the connection wrapper, the result stream iterator and the prepared
    statement wrapper, together with the properties of the streaming and
    batch-insertion protocols.

    Asynchronous methods are written in a small free monad [Prog] whose
    effects are exactly what the TypeScript methods do to the outside world:
    read and write the fields of [this], log, call a method of the bindings
    (which hands back a promise) and [await] a promise. *)

From Stdlib Require Import String Bool Arith Lia NArith List.
From Stdlib Require Import Strings.Byte.
Import ListNotations.
Local Open Scope string_scope.
Local Open Scope list_scope.

Set Implicit Arguments.

(** ** Values that cross the binding surface *)

(** A [Uint8Array]. *)
Definition Uint8Array := list byte.

(** The bytes of an ASCII literal, for readable scenarios. *)
Definition bytes (s : string) : Uint8Array := list_byte_of_string s.

(** The reason a promise is rejected with. *)
Definition Error := string.

(** The [AsyncDuckDB] object a connection talks to. *)
Inductive AsyncDuckDB : Type := Worker (id : nat).

(** Elements of the [any[]] parameter list of a prepared statement. *)
Inductive JsValue : Type :=
| JsNull
| JsBool (b : bool)
| JsNumber (n : N)
| JsString (s : string).

(** Insert options are declared in [bindings/insert_options]; this file only
    hands them through to the bindings, so they are kept as opaque text. *)
Definition ArrowInsertOptions := string.
Definition CSVInsertOptions := string.
Definition JSONInsertOptions := string.

(** The methods of [AsyncDuckDB] this file calls, with their arguments. *)
Module Binding.
Inductive Call : Type :=
| disconnect (conn : N)
| runQuery (conn : N) (text : string)
| sendQuery (conn : N) (text : string)
| fetchQueryResults (conn : N)
| createPrepared (conn : N) (text : string)
| closePrepared (conn stmt : N)
| runPrepared (conn stmt : N) (params : list JsValue)
| sendPrepared (conn stmt : N) (params : list JsValue)
| insertArrowFromIPCStream (conn : N) (buffer : Uint8Array) (options : ArrowInsertOptions)
| insertCSVFromPath (conn : N) (text : string) (options : CSVInsertOptions)
| insertJSONFromPath (conn : N) (text : string) (options : JSONInsertOptions).

(** The connection identifier a call is made on. *)
Definition conn_of (c : Call) : N :=
  match c with
  | disconnect n | runQuery n _ | sendQuery n _ | fetchQueryResults n
  | createPrepared n _ | closePrepared n _ | runPrepared n _ _
  | sendPrepared n _ _ | insertArrowFromIPCStream n _ _
  | insertCSVFromPath n _ _ | insertJSONFromPath n _ _ => n
  end.
End Binding.

(** A request: which bindings object, which method. *)
Record Request : Type := mkRequest { rq_db : AsyncDuckDB; rq_call : Binding.Call }.

(** What a promise of the bindings resolves to.  The TypeScript signatures fix
    the shape per method; the projections below are total for convenience. *)
Inductive Value : Type :=
| VBuffer (b : Uint8Array)
| VNumber (n : N)
| VVoid.

Definition as_buffer (v : Value) : Uint8Array :=
  match v with VBuffer b => b | _ => [] end.

Definition as_number (v : Value) : N :=
  match v with VNumber n => n | _ => 0%N end.

(** A settled promise. *)
Inductive Settled : Type :=
| Fulfilled (v : Value)
| Rejected (e : Error).

(** A promise is identified by the position of its request among all requests
    issued so far. *)
Definition Promise := nat.

(** The engine behind the bindings, as seen from this side: how the promise of
    each request settles.  Quantifying over all engines covers every behaviour
    of the binding surface, failures included. *)
Definition Engine := Promise -> Settled.

(** An engine that settles the requests by a script, and fulfils with an empty
    buffer once the script is over. *)
Definition scripted (script : list Settled) : Engine :=
  fun p => nth p script (Fulfilled (VBuffer [])).

(** ** Log records (the timestamp is left out) *)

Module Logging.
Inductive LogLevel : Type := INFO.
Inductive LogOrigin : Type := ASYNC_DUCKDB.
Inductive LogTopic : Type := QUERY.
Inductive LogEvent : Type := RUN.

Record LogEntry : Type := mkLogEntry {
  level : LogLevel;
  origin : LogOrigin;
  topic : LogTopic;
  event : LogEvent;
  value : string
}.
End Logging.

(** ** Results of the iterator protocol *)

(** [IteratorResult<Uint8Array>]: [value] is [None] for JavaScript's [null]. *)
Record IteratorResult : Type := mkIteratorResult {
  done : bool;
  value : option Uint8Array
}.

(** How a call of an asynchronous method ends. *)
Inductive Outcome (R : Type) : Type :=
| Returned (r : R)
| Thrown (e : Error).
Arguments Thrown {R} e.

(** ** Observable events *)

Inductive Event : Type :=
| EvLog (entry : Logging.LogEntry)
| EvWarn (message : string)
| EvIssue (p : Promise) (rq : Request)
| EvSettle (p : Promise) (r : Settled)
| EvNext (o : Outcome IteratorResult).

Definition Trace := list Event.

Definition is_issue (ev : Event) : bool :=
  match ev with EvIssue _ _ => true | _ => false end.

(** The number of requests issued so far; also the next promise. *)
Definition issued (t : Trace) : nat := length (filter is_issue t).

(** The requests of a trace, in the order they were issued. *)
Fixpoint requests (t : Trace) : list Request :=
  match t with
  | [] => []
  | EvIssue _ rq :: t' => rq :: requests t'
  | _ :: t' => requests t'
  end.

(** ** Asynchronous programs *)

Section Programs.
(** [S] is the type of the mutable fields of [this]. *)
Variable S : Type.

Inductive Prog (R : Type) : Type :=
| Ret (r : R)
| Throw (e : Error)
| Get (k : S -> Prog R)
| Put (s : S) (k : Prog R)
| Log (entry : Logging.LogEntry) (k : Prog R)
| Warn (message : string) (k : Prog R)
| Issue (rq : Request) (k : Promise -> Prog R)
| Await (p : Promise) (k : Value -> Prog R)
| TryAwait (p : Promise) (k : Settled -> Prog R).

Arguments Throw {R} e.
Arguments Get {R} k.
Arguments Issue {R} rq k.
Arguments Await {R} p k.
Arguments TryAwait {R} p k.

Fixpoint bind {A B : Type} (m : Prog A) (f : A -> Prog B) : Prog B :=
  match m with
  | Ret a => f a
  | Throw e => Throw e
  | Get k => Get (fun s => bind (k s) f)
  | Put s k => Put s (bind k f)
  | Log l k => Log l (bind k f)
  | Warn w k => Warn w (bind k f)
  | Issue rq k => Issue rq (fun p => bind (k p) f)
  | Await p k => Await p (fun v => bind (k v) f)
  | TryAwait p k => TryAwait p (fun r => bind (k r) f)
  end.

(** Sequential execution: the caller awaits the method before doing anything
    else, so an [await] simply receives what the engine settles the promise
    with; a rejection is thrown (the file has no [try]).  [TryAwait] is an
    [await] whose caller looks at the rejection itself: it is how a method of
    this file runs inside code that may catch. *)
Fixpoint run {R : Type} (e : Engine) (m : Prog R) (s : S) (t : Trace)
  : S * Trace * Outcome R :=
  match m with
  | Ret r => (s, t, Returned r)
  | Throw x => (s, t, Thrown x)
  | Get k => run e (k s) s t
  | Put s' k => run e k s' t
  | Log l k => run e k s (t ++ [EvLog l])
  | Warn w k => run e k s (t ++ [EvWarn w])
  | Issue rq k => run e (k (issued t)) s (t ++ [EvIssue (issued t) rq])
  | Await p k =>
      match e p with
      | Fulfilled v => run e (k v) s (t ++ [EvSettle p (Fulfilled v)])
      | Rejected x => (s, t ++ [EvSettle p (Rejected x)], Thrown x)
      end
  | TryAwait p k => run e (k (e p)) s (t ++ [EvSettle p (e p)])
  end.

(** Where a method stands when control goes back to its caller. *)
Inductive Suspended (R : Type) : Type :=
| Finished (o : Outcome R)
| Waiting (p : Promise) (k : Value -> Prog R)
| Catching (p : Promise) (k : Settled -> Prog R).

(** The synchronous part of a call: everything up to the first [await]. *)
Fixpoint start {R : Type} (m : Prog R) (s : S) (t : Trace)
  : S * Trace * Suspended R :=
  match m with
  | Ret r => (s, t, Finished (Returned r))
  | Throw x => (s, t, Finished (Thrown x))
  | Get k => start (k s) s t
  | Put s' k => start k s' t
  | Log l k => start k s (t ++ [EvLog l])
  | Warn w k => start k s (t ++ [EvWarn w])
  | Issue rq k => start (k (issued t)) s (t ++ [EvIssue (issued t) rq])
  | Await p k => (s, t, Waiting p k)
  | TryAwait p k => (s, t, Catching p k)
  end.

(** A suspended method goes on when its promise has settled. *)
Definition resume {R : Type} (w : Suspended R) (r : Settled) (s : S) (t : Trace)
  : S * Trace * Suspended R :=
  match w with
  | Finished o => (s, t, Finished o)
  | Waiting p k =>
      match r with
      | Fulfilled v => start (k v) s (t ++ [EvSettle p (Fulfilled v)])
      | Rejected x => (s, t ++ [EvSettle p (Rejected x)], Finished (Thrown x))
      end
  | Catching p k => start (k r) s (t ++ [EvSettle p r])
  end.
End Programs.

Arguments Ret {S R} r.
Arguments Throw {S R} e.
Arguments Get {S R} k.
Arguments Put {S R} s k.
Arguments Log {S R} entry k.
Arguments Warn {S R} message k.
Arguments Issue {S R} rq k.
Arguments Await {S R} p k.
Arguments TryAwait {S R} p k.
Arguments Finished {S R} o.
Arguments Waiting {S R} p k.
Arguments Catching {S R} p k.

Declare Scope prog_scope.
Delimit Scope prog_scope with prog.
Notation "x <- m ;; k" := (bind m (fun x => k))
  (at level 61, m at next level, right associativity) : prog_scope.
Notation "m ;;; k" := (bind m (fun _ => k))
  (at level 61, right associativity) : prog_scope.
Local Open Scope prog_scope.

(** [this.field = ...] *)
Definition modify {S : Type} (f : S -> S) : Prog S unit :=
  Get (fun s => Put (f s) (Ret tt)).

(** Reading [this]. *)
Definition this {S : Type} : Prog S S := Get (fun s => Ret s).

(** Calling a method of the bindings: the request leaves, a promise comes back. *)
Definition call {S : Type} (db : AsyncDuckDB) (c : Binding.Call) : Prog S Promise :=
  Issue (mkRequest db c) (fun p => Ret p).

(** [await p] *)
Definition await {S : Type} (p : Promise) : Prog S Value :=
  Await p (fun v => Ret v).

(** A method of another object, called and awaited by code that may catch
    what it throws.  The fields it reads and writes are those of that object,
    [callee]; its requests and awaits happen as they come; the caller gets
    the object as the call left it and the way the call ended. *)
Fixpoint within {S T R : Type} (m : Prog T R) (callee : T) : Prog S (T * Outcome R) :=
  match m with
  | Ret r => Ret (callee, Returned r)
  | Throw x => Ret (callee, Thrown x)
  | Get k => within (k callee) callee
  | Put callee' k => within k callee'
  | Log l k => Log l (within k callee)
  | Warn w k => Warn w (within k callee)
  | Issue rq k => Issue rq (fun p => within (k p) callee)
  | Await p k =>
      TryAwait p (fun r =>
        match r with
        | Fulfilled v => within (k v) callee
        | Rejected x => Ret (callee, Thrown x)
        end)
  | TryAwait p k => TryAwait p (fun r => within (k r) callee)
  end.

(** ** Clients of the iterator protocol

    Code that is handed an [AsyncIterable] can do one thing with it: call
    [next()], await the call, and decide from the way it ended whether to
    call again, to resolve or to reject. *)
Inductive Consumer (R : Type) : Type :=
| Resolve (r : R)
| Reject (x : Error)
| Pull (k : Outcome IteratorResult -> Consumer R).
Arguments Reject {R} x.

(** ** AsyncResultStreamIterator *)

Module AsyncResultStreamIterator.
Record t : Type := mk {
  db : AsyncDuckDB;
  conn : N;
  header : Uint8Array;
  _first : bool;
  _depleted : bool;
  _inFlight : option Promise
}.

Definition constructor (db : AsyncDuckDB) (conn : N) (header : Uint8Array) : t :=
  mk db conn header true false None.

Definition set_first (b : bool) (it : t) : t :=
  mk (db it) (conn it) (header it) b (_depleted it) (_inFlight it).
Definition set_depleted (b : bool) (it : t) : t :=
  mk (db it) (conn it) (header it) (_first it) b (_inFlight it).
Definition set_inFlight (p : option Promise) (it : t) : t :=
  mk (db it) (conn it) (header it) (_first it) (_depleted it) p.

Definition next : Prog t IteratorResult :=
  it <- this ;;
  if _first it then
    modify (set_first false) ;;;
    it <- this ;;
    Ret (mkIteratorResult false (Some (header it)))
  else
    it <- this ;;
    if _depleted it then
      Ret (mkIteratorResult true None)
    else
      buffer <- (it <- this ;;
                 match _inFlight it with
                 | Some p =>
                     v <- await p ;;
                     modify (set_inFlight None) ;;;
                     Ret (as_buffer v)
                 | None =>
                     it <- this ;;
                     p <- call (db it) (Binding.fetchQueryResults (conn it)) ;;
                     v <- await p ;;
                     Ret (as_buffer v)
                 end) ;;
      modify (set_depleted (length buffer =? 0)%nat) ;;;
      it <- this ;;
      (if negb (_depleted it) then
         it <- this ;;
         p <- call (db it) (Binding.fetchQueryResults (conn it)) ;;
         modify (set_inFlight (Some p))
       else Ret tt) ;;;
      it <- this ;;
      Ret (mkIteratorResult (_depleted it) (Some buffer)).

(** One [next()] call that the caller awaits; the way it ends is recorded. *)
Definition call_next (e : Engine) (it : t) (tr : Trace) : t * Trace * Outcome IteratorResult :=
  let '(it', tr', o) := run e next it tr in
  (it', tr' ++ [EvNext o], o).

(** [n] successive [next()] calls, each awaited before the following one. *)
Fixpoint nexts (e : Engine) (n : nat) (it : t) (tr : Trace)
  : t * Trace * list (Outcome IteratorResult) :=
  match n with
  | O => (it, tr, [])
  | S n' =>
      let '(it', tr', o) := call_next e it tr in
      let '(it'', tr'', os) := nexts e n' it' tr' in
      (it'', tr'', o :: os)
  end.

(** A client at work on an iterator: every [Pull] is a [next()] call that is
    awaited before the client goes on.  The trace shows the requests and the
    awaits of these calls; [EvNext] marks only the calls made through
    [call_next]. *)
Fixpoint consume {S R : Type} (client : Consumer R) (it : t) : Prog S (t * R) :=
  match client with
  | Resolve r => Ret (it, r)
  | Reject x => Throw x
  | Pull k =>
      ended <- within next it ;;
      consume (k (snd ended)) (fst ended)
  end.
End AsyncResultStreamIterator.

(** ** Apache Arrow, as far as this file uses it

    Arrow is an external library: its tables, schemas and batches are opaque
    here, and its IPC stream writer is a state machine that pushes bytes into
    the sink it was reset with. *)

Class Arrow : Type := {
  Schema : Type;
  RecordBatch : Type;
  Table : Type;
  Vectors : Type;
  (** [arrow.Table.new(children)] *)
  Table_new : Vectors -> Table;
  Table_schema : Table -> Schema;
  Table_chunks : Table -> list RecordBatch;
  (** [schema.fields.length] *)
  Schema_fields_length : Schema -> nat;
  (** [arrow.Table.from(arrow.RecordBatchReader.from(buffer))]; decoding may throw. *)
  Table_from : Uint8Array -> Error + Table;
  RecordBatchStreamWriter : Type;
  (** [new arrow.RecordBatchStreamWriter().reset(sink, schema)]: the writer and
      the bytes it pushes into the sink (the schema message). *)
  writer_reset : Schema -> RecordBatchStreamWriter * Uint8Array;
  (** [writer.write(batch)] *)
  writer_write : RecordBatchStreamWriter -> RecordBatch -> RecordBatchStreamWriter * Uint8Array;
  (** [writer.finish()]: the trailing framing. *)
  writer_finish : RecordBatchStreamWriter -> RecordBatchStreamWriter * Uint8Array;
  (** What a reader has read and keeps when it has been opened. *)
  ReaderState : Type;
  (** [arrow.RecordBatchReader.from(iter)]: how Arrow reads the beginning of
      the iterator before the promise of the reader settles. *)
  RecordBatchReader_from : Consumer ReaderState
}.

(** The asynchronous Arrow reader handed out by [sendQuery] and [send]: the
    iterator it reads from, as opening the reader left it, and what the
    reader has read so far. *)
Record AsyncRecordBatchStreamReader {arrow : Arrow} : Type := mkReader {
  source : AsyncResultStreamIterator.t;
  opened : ReaderState
}.
Arguments mkReader {arrow} source opened.

(** ** IPCBuffer *)

Module IPCBuffer.
(** Modelled from the spec: [utils.IPCBuffer] is not among the sources at
    hand.  It is "an owned growable buffer", here the queue of the blocks
    written into it and not yet flushed. *)
Definition t := list Uint8Array.

Definition new : t := [].

(** What the writer does to its sink. *)
Definition write (buffer : t) (block : Uint8Array) : t := buffer ++ [block].

(** Modelled from the spec: [flush] "transfers ownership of the accumulated
    bytes out while leaving an empty buffer behind"; the bytes handed out are
    "all previously-written, not-yet-sent batches", joined in the order they
    were written. *)
Definition flush (buffer : t) : Uint8Array * t := (concat buffer, []).
End IPCBuffer.

(** ** AsyncPreparedStatement *)

Module AsyncPreparedStatement.
Record t : Type := constructor {
  bindings : AsyncDuckDB;
  connectionId : N;
  statementId : N
}.

Section Methods.
Context {arrow : Arrow}.

Definition close : Prog t unit :=
  stmt <- this ;;
  p <- call (bindings stmt) (Binding.closePrepared (connectionId stmt) (statementId stmt)) ;;
  await p ;;;
  Ret tt.

Definition run (params : list JsValue) : Prog t Table :=
  stmt <- this ;;
  p <- call (bindings stmt)
         (Binding.runPrepared (connectionId stmt) (statementId stmt) params) ;;
  v <- await p ;;
  match Table_from (as_buffer v) with
  | inr table => Ret table
  | inl err => Throw err
  end.

(** [await arrow.RecordBatchReader.from(iter)] is Arrow at work on the new
    iterator; the two [console.assert] lines throw nothing. *)
Definition send (params : list JsValue) : Prog t AsyncRecordBatchStreamReader :=
  stmt <- this ;;
  p <- call (bindings stmt)
         (Binding.sendPrepared (connectionId stmt) (statementId stmt) params) ;;
  v <- await p ;;
  stmt <- this ;;
  let iter := AsyncResultStreamIterator.constructor
                (bindings stmt) (connectionId stmt) (as_buffer v) in
  reader <- AsyncResultStreamIterator.consume RecordBatchReader_from iter ;;
  Ret (mkReader (fst reader) (snd reader)).
End Methods.
End AsyncPreparedStatement.

(** ** AsyncDuckDBConnection *)

Module AsyncDuckDBConnection.
Record t : Type := constructor {
  _bindings : AsyncDuckDB;
  _conn : N
}.

Definition bindings (c : t) : AsyncDuckDB := _bindings c.

Definition close : Prog t unit :=
  c <- this ;;
  p <- call (_bindings c) (Binding.disconnect (_conn c)) ;;
  await p ;;;
  Ret tt.

Definition useUnsafe {R : Type} (c : t) (callback : AsyncDuckDB -> N -> R) : R :=
  callback (_bindings c) (_conn c).

Definition query_log (text : string) : Logging.LogEntry :=
  Logging.mkLogEntry Logging.INFO Logging.ASYNC_DUCKDB Logging.QUERY Logging.RUN text.

Section Methods.
Context {arrow : Arrow}.

Definition runQuery (text : string) : Prog t Table :=
  Log (query_log text) (Ret tt) ;;;
  c <- this ;;
  p <- call (_bindings c) (Binding.runQuery (_conn c) text) ;;
  v <- await p ;;
  match Table_from (as_buffer v) with
  | inr table => Ret table
  | inl err => Throw err
  end.

(** As in [AsyncPreparedStatement.send], the reader is opened on the new
    iterator and awaited before the method returns. *)
Definition sendQuery (text : string) : Prog t AsyncRecordBatchStreamReader :=
  Log (query_log text) (Ret tt) ;;;
  c <- this ;;
  p <- call (_bindings c) (Binding.sendQuery (_conn c) text) ;;
  v <- await p ;;
  c <- this ;;
  let iter := AsyncResultStreamIterator.constructor (_bindings c) (_conn c) (as_buffer v) in
  reader <- AsyncResultStreamIterator.consume RecordBatchReader_from iter ;;
  Ret (mkReader (fst reader) (snd reader)).

Definition prepareStatement (text : string) : Prog t AsyncPreparedStatement.t :=
  c <- this ;;
  p <- call (_bindings c) (Binding.createPrepared (_conn c) text) ;;
  v <- await p ;;
  c <- this ;;
  Ret (AsyncPreparedStatement.constructor (_bindings c) (_conn c) (as_number v)).

(** The body of [for (const batch of batches)]: the loop variables are
    [first], the buffer and the writer that pushes into it. *)
Fixpoint for_batches (options : ArrowInsertOptions) (batches : list RecordBatch)
    (first : bool) (buffer : IPCBuffer.t) (writer : RecordBatchStreamWriter)
  : Prog t (IPCBuffer.t * RecordBatchStreamWriter) :=
  match batches with
  | [] => Ret (buffer, writer)
  | batch :: rest =>
      buffer <- (if negb first then
                   c <- this ;;
                   let (payload, buffer') := IPCBuffer.flush buffer in
                   p <- call (_bindings c)
                          (Binding.insertArrowFromIPCStream (_conn c) payload options) ;;
                   await p ;;;
                   Ret buffer'
                 else Ret buffer) ;;
      let (writer', block) := writer_write writer batch in
      for_batches options rest false (IPCBuffer.write buffer block) writer'
  end.

Definition insertArrowBatches (schema : Schema) (batches : list RecordBatch)
    (options : ArrowInsertOptions) : Prog t unit :=
  let buffer := IPCBuffer.new in
  let (writer, block) := writer_reset schema in
  let buffer := IPCBuffer.write buffer block in
  st <- for_batches options batches true buffer writer ;;
  let (buffer, writer) := st in
  let (writer, block) := writer_finish writer in
  let buffer := IPCBuffer.write buffer block in
  c <- this ;;
  let (payload, buffer) := IPCBuffer.flush buffer in
  p <- call (_bindings c) (Binding.insertArrowFromIPCStream (_conn c) payload options) ;;
  await p ;;;
  Ret tt.

Definition empty_schema_warning : string :=
  "The schema is empty! If you used arrow.Table.from, consider constructing schema and batches manually".

Definition insertArrowTable (table : Table) (options : ArrowInsertOptions) : Prog t unit :=
  (if (Schema_fields_length (Table_schema table) =? 0)%nat
   then Warn empty_schema_warning (Ret tt)
   else Ret tt) ;;;
  insertArrowBatches (Table_schema table) (Table_chunks table) options.

Definition insertArrowVectors (children : Vectors) (options : ArrowInsertOptions)
  : Prog t unit :=
  insertArrowTable (Table_new children) options.
End Methods.

Definition insertArrowFromIPCStream (buffer : Uint8Array) (options : ArrowInsertOptions)
  : Prog t unit :=
  c <- this ;;
  p <- call (_bindings c) (Binding.insertArrowFromIPCStream (_conn c) buffer options) ;;
  await p ;;;
  Ret tt.

Definition insertCSVFromPath (text : string) (options : CSVInsertOptions) : Prog t unit :=
  c <- this ;;
  p <- call (_bindings c) (Binding.insertCSVFromPath (_conn c) text options) ;;
  await p ;;;
  Ret tt.

Definition insertJSONFromPath (text : string) (options : JSONInsertOptions) : Prog t unit :=
  c <- this ;;
  p <- call (_bindings c) (Binding.insertJSONFromPath (_conn c) text options) ;;
  await p ;;;
  Ret tt.
End AsyncDuckDBConnection.

(** ** A recording encoder for concrete scenarios

    Schemas and batches are named by text; the writer frames each message so
    that payload boundaries are visible in the bytes. *)
Module MockArrow.
Definition frame (tag name : string) : Uint8Array :=
  bytes ("<" ++ tag ++ ":" ++ name ++ ">").

(** A reader that is opened by reading on until it holds [size] bytes or the
    iterator is done, in at most [pulls] calls, and fails when a call fails. *)
Fixpoint peek (pulls size : nat) (have : Uint8Array) : Consumer Uint8Array :=
  match pulls with
  | O => Resolve have
  | S pulls' =>
      Pull (fun ended =>
        match ended with
        | Thrown x => Reject x
        | Returned r =>
            let have' := match value r with
                         | Some b => if done r then have else have ++ b
                         | None => have
                         end in
            if done r || (size <=? length have')%nat then Resolve have'
            else peek pulls' size have'
        end)
  end.

#[export] Instance arrow : Arrow := {|
  Schema := string;
  RecordBatch := string;
  Table := Uint8Array;
  Vectors := list string;
  Table_new := fun _ => [];
  Table_schema := fun _ => "";
  Table_chunks := fun _ => [];
  Schema_fields_length := String.length;
  Table_from := fun buffer =>
    match buffer with [] => inl "Invalid Arrow buffer" | _ => inr buffer end;
  RecordBatchStreamWriter := unit;
  writer_reset := fun schema => (tt, frame "schema" schema);
  writer_write := fun _ batch => (tt, frame "batch" batch);
  writer_finish := fun _ => (tt, frame "eos" "");
  ReaderState := Uint8Array;
  RecordBatchReader_from := peek 9 8 []
|}.
End MockArrow.

(** ** Outstanding requests *)

(** A request is outstanding from the moment it is issued until an [await]
    has seen its promise settle. *)
Definition track (o : list Promise) (ev : Event) : list Promise :=
  match ev with
  | EvIssue p _ => o ++ [p]
  | EvSettle p _ => remove Nat.eq_dec p o
  | _ => o
  end.

Definition outstanding (t : Trace) : list Promise := fold_left track t [].

(** No request is issued while another one is outstanding. *)
Definition serialized (t : Trace) : Prop :=
  forall t1 p rq t2, t = t1 ++ EvIssue p rq :: t2 -> outstanding t1 = [].

(** At every instant at most one request is outstanding. *)
Definition at_most_one_outstanding (t : Trace) : Prop :=
  forall t1 t2, t = t1 ++ t2 -> length (outstanding t1) <= 1.

(** ** Iterator vocabulary *)

Definition fetch_request (it : AsyncResultStreamIterator.t) : Request :=
  mkRequest (AsyncResultStreamIterator.db it)
            (Binding.fetchQueryResults (AsyncResultStreamIterator.conn it)).

(** [{ done: true, value: null }] *)
Definition done_result : IteratorResult := mkIteratorResult true None.

(** [{ done: false, value: buffer }] *)
Definition chunk_result (buffer : Uint8Array) : IteratorResult :=
  mkIteratorResult false (Some buffer).

(** A result carries no data: [null] or a zero-length buffer. *)
Definition is_empty (r : IteratorResult) : bool :=
  match value r with
  | None => true
  | Some b => (length b =? 0)%nat
  end.

(** What is left in the trace by a [next()] call that found the pre-issued
    fetch [p] rejected. *)
Definition failed_attempt (p : Promise) (ev : Event) : Prop :=
  match ev with
  | EvSettle q (Rejected _) => q = p
  | EvNext (Thrown _) => True
  | _ => False
  end.

(** The promise a streaming [next()] call awaits: the pre-issued one, or
    the one it issues itself. *)
Definition awaited (it : AsyncResultStreamIterator.t) (tr : Trace) : Promise :=
  match AsyncResultStreamIterator._inFlight it with
  | Some p => p
  | None => issued tr
  end.

(** The trace up to that [await]. *)
Definition upto_await (it : AsyncResultStreamIterator.t) (tr : Trace) : Trace :=
  match AsyncResultStreamIterator._inFlight it with
  | Some _ => tr
  | None => tr ++ [EvIssue (issued tr) (fetch_request it)]
  end.

(** The pre-issued fetch [p] sits between the return of a non-empty chunk and
    its consumption: it was issued right before that chunk went back to the
    caller, and whatever followed are calls that found it rejected. *)
Definition prefetched (it : AsyncResultStreamIterator.t) (tr : Trace) (p : Promise) : Prop :=
  exists t1 buffer attempts,
    tr = t1 ++ EvIssue p (fetch_request it)
              :: EvNext (Returned (chunk_result buffer)) :: attempts
    /\ buffer <> []
    /\ Forall (failed_attempt p) attempts.

(** What holds of an iterator and its trace between two [next()] calls. *)
Record between_calls (it : AsyncResultStreamIterator.t) (tr : Trace) : Prop := {
  inv_serialized : serialized tr;
  inv_depleted :
    AsyncResultStreamIterator._depleted it = true ->
    AsyncResultStreamIterator._first it = false;
  inv_idle :
    AsyncResultStreamIterator._inFlight it = None -> outstanding tr = [];
  inv_slot : forall p,
    AsyncResultStreamIterator._inFlight it = Some p ->
    AsyncResultStreamIterator._first it = false
    /\ AsyncResultStreamIterator._depleted it = false
    /\ prefetched it tr p
    /\ (outstanding tr = [p] \/ outstanding tr = [])
}.

Ltac run_next :=
  unfold AsyncResultStreamIterator.call_next, AsyncResultStreamIterator.next,
    this, modify, call, await, fetch_request,
    awaited, upto_await, chunk_result, done_result; simpl.

(** A client at work on an iterator, seen from outside: the iterator and the
    trace as the client leaves them, and the way it ends. *)
Fixpoint opening {R : Type} (e : Engine) (client : Consumer R)
    (it : AsyncResultStreamIterator.t) (tr : Trace)
  : AsyncResultStreamIterator.t * Trace * Outcome R :=
  match client with
  | Resolve r => (it, tr, Returned r)
  | Reject x => (it, tr, Thrown x)
  | Pull k =>
      let '(it', tr', ended) := run e AsyncResultStreamIterator.next it tr in
      opening e (k ended) it' tr'
  end.

(** The reader a method hands out when the opening has resolved. *)
Definition opened_reader {arrow : Arrow} (it : AsyncResultStreamIterator.t)
    (o : Outcome ReaderState) : Outcome AsyncRecordBatchStreamReader :=
  match o with
  | Returned st => Returned (mkReader it st)
  | Thrown x => Thrown x
  end.

(** ** Insertion vocabulary *)

Section InsertionVocabulary.
Context {arrow : Arrow}.

Definition ingest (c : AsyncDuckDBConnection.t) (options : ArrowInsertOptions)
    (payload : Uint8Array) : Request :=
  mkRequest (AsyncDuckDBConnection._bindings c)
    (Binding.insertArrowFromIPCStream (AsyncDuckDBConnection._conn c) payload options).

(** The block the writer emits for each batch, in order, and the writer
    after the last one. *)
Fixpoint written (writer : RecordBatchStreamWriter) (batches : list RecordBatch)
  : list Uint8Array * RecordBatchStreamWriter :=
  match batches with
  | [] => ([], writer)
  | batch :: rest =>
      let (writer', block) := writer_write writer batch in
      let (blocks, writer'') := written writer' rest in
      (block :: blocks, writer'')
  end.

(** The schema message. *)
Definition header_block (schema : Schema) : Uint8Array := snd (writer_reset schema).

(** The blocks of the batches, written after the schema. *)
Definition batch_blocks (schema : Schema) (batches : list RecordBatch) : list Uint8Array :=
  fst (written (fst (writer_reset schema)) batches).

(** The trailing framing, written by [finish] after the last batch. *)
Definition trailer (schema : Schema) (batches : list RecordBatch) : Uint8Array :=
  snd (writer_finish (snd (written (fst (writer_reset schema)) batches))).

(** One message per block; the trailing framing goes with the last one. *)
Fixpoint seal (current : Uint8Array) (later : list Uint8Array) (fin : Uint8Array)
  : list Uint8Array :=
  match later with
  | [] => [current ++ fin]
  | block :: later' => current :: seal block later' fin
  end.

(** The messages of an insertion, in the words of the specification: the
    schema travels with the first batch, every further batch is a message
    of its own, the trailing framing travels with the last batch, and an
    empty sequence still makes one header-only message. *)
Definition payloads (schema : Schema) (batches : list RecordBatch) : list Uint8Array :=
  match batch_blocks schema batches with
  | [] => [header_block schema ++ trailer schema batches]
  | block :: later =>
      seal (header_block schema ++ block) later (trailer schema batches)
  end.

(** What the loop flushes once [first] is off: on every batch the buffer as
    it stands, which then holds the block of that batch alone. *)
Fixpoint flushes (buffer : IPCBuffer.t) (blocks : list Uint8Array)
  : list Uint8Array * IPCBuffer.t :=
  match blocks with
  | [] => ([], buffer)
  | block :: later =>
      let (messages, buffer') := flushes (IPCBuffer.write [] block) later in
      (fst (IPCBuffer.flush buffer) :: messages, buffer')
  end.

(** The trace of messages that are sent and awaited one by one. *)
Fixpoint exchanges (e : Engine) (c : AsyncDuckDBConnection.t) (options : ArrowInsertOptions)
    (p : Promise) (messages : list Uint8Array) : Trace :=
  match messages with
  | [] => []
  | payload :: rest =>
      EvIssue p (ingest c options payload) :: EvSettle p (e p)
        :: exchanges e c options (S p) rest
  end.

(** Sending messages one after the other, each awaited before the next is
    sent, stopping at the first rejection. *)
Fixpoint send_all (e : Engine) (c : AsyncDuckDBConnection.t) (options : ArrowInsertOptions)
    (p : Promise) (messages : list Uint8Array) : Trace * Outcome unit :=
  match messages with
  | [] => ([], Returned tt)
  | payload :: rest =>
      match e p with
      | Fulfilled _ =>
          let (t, o) := send_all e c options (S p) rest in
          (EvIssue p (ingest c options payload) :: EvSettle p (e p) :: t, o)
      | Rejected x =>
          ([EvIssue p (ingest c options payload); EvSettle p (Rejected x)], Thrown x)
      end
  end.
End InsertionVocabulary.

(** ** One-shot calls *)

(** How a method that only awaits one request ends. *)
Definition settle_unit (r : Settled) : Outcome unit :=
  match r with
  | Fulfilled _ => Returned tt
  | Rejected x => Thrown x
  end.

(** ** Concurrency vocabulary *)

(** A call was refused: it ended with an error before awaiting anything. *)
Definition refused {S R : Type} (w : Suspended S R) : bool :=
  match w with
  | Finished (Thrown _) => true
  | _ => false
  end.

(** Whatever the trace so far, and so whatever is outstanding, the method
    issues [first] in the synchronous part of the call, leaves [this] as it
    is and goes on to await that request. *)
Definition never_refuses {S R : Type} (m : Prog S R) (s : S) (first : Request) : Prop :=
  forall tr : Trace,
    exists (quiet : Trace) (k : Value -> Prog S R),
      start m s tr = (s, tr ++ quiet ++ [EvIssue (issued tr) first], Waiting (issued tr) k)
      /\ requests quiet = [].

(** ** Engine behaviours *)

(** From promise [base] on, the engine fulfils the requests with the buffers
    [chunks], in that order. *)
Definition delivers (e : Engine) (base : Promise) (chunks : list Uint8Array) : Prop :=
  forall i b, nth_error chunks i = Some b -> e (base + i) = Fulfilled (VBuffer b).

(** From promise [base] on, the engine rejects the requests with [errors], in
    that order. *)
Definition rejects (e : Engine) (base : Promise) (errors : list Error) : Prop :=
  forall i x, nth_error errors i = Some x -> e (base + i) = Rejected x.

(** The end of a stream as the iterator reports it: [{ done: true, value: buffer }]
    with the zero-length buffer that was fetched. *)
Definition end_result : IteratorResult := mkIteratorResult true (Some []).

(** What a failed [next()] call that issued its own fetch leaves in the trace. *)
Fixpoint retries (rq : Request) (p : Promise) (errors : list Error) : Trace :=
  match errors with
  | [] => []
  | x :: rest =>
      EvIssue p rq :: EvSettle p (Rejected x) :: EvNext (Thrown x) :: retries rq (S p) rest
  end.

(** The promises an [await] has seen settle, in order. *)
Fixpoint settles (t : Trace) : list Promise :=
  match t with
  | [] => []
  | EvSettle p _ :: t' => p :: settles t'
  | _ :: t' => settles t'
  end.

(** A streaming iterator whose in-flight slot is empty counts for one fetch
    it has not issued yet. *)
Definition owed (it : AsyncResultStreamIterator.t) : nat :=
  if AsyncResultStreamIterator._first it then 0
  else if AsyncResultStreamIterator._depleted it then 0
  else match AsyncResultStreamIterator._inFlight it with
       | Some _ => 0
       | None => 1
       end.

(** * Properties *)

(** ** Traces *)

Lemma issued_app (t1 t2 : Trace) : issued (t1 ++ t2) = issued t1 + issued t2.
Proof. unfold issued. rewrite filter_app, length_app. reflexivity. Qed.

Lemma issued_snoc_issue (t : Trace) p rq : issued (t ++ [EvIssue p rq]) = S (issued t).
Proof. rewrite issued_app. unfold issued. simpl. lia. Qed.

Lemma issued_snoc_settle (t : Trace) p r : issued (t ++ [EvSettle p r]) = issued t.
Proof. rewrite issued_app. unfold issued. simpl. lia. Qed.

Lemma requests_app (t1 t2 : Trace) : requests (t1 ++ t2) = requests t1 ++ requests t2.
Proof.
  induction t1 as [|ev t1 IH]; simpl; [reflexivity|].
  destruct ev; simpl; rewrite IH; reflexivity.
Qed.

Lemma outstanding_snoc (t : Trace) (ev : Event) :
  outstanding (t ++ [ev]) = track (outstanding t) ev.
Proof. unfold outstanding. rewrite fold_left_app. reflexivity. Qed.

(** ** Programs *)

Lemma run_bind {S A B : Type} (e : Engine) (m : Prog S A) (f : A -> Prog S B) :
  forall s t,
    run e (bind m f) s t =
    match run e m s t with
    | (s', t', Returned a) => run e (f a) s' t'
    | (s', t', Thrown x) => (s', t', Thrown x)
    end.
Proof.
  induction m as [a|x|k IH|s0 k IH|l k IH|w k IH|rq k IH|p k IH|p k IH]; intros s t; simpl;
    try reflexivity; try apply IH.
  destruct (e p); [apply IH | reflexivity].
Qed.

Lemma run_within {S T R : Type} (e : Engine) (m : Prog T R) :
  forall (callee : T) (s : S) (t : Trace),
    run e (within m callee) s t =
    let '(callee', t', o) := run e m callee t in (s, t', Returned (callee', o)).
Proof.
  induction m as [a|x|k IH|s0 k IH|l k IH|w k IH|rq k IH|p k IH|p k IH];
    intros callee s t; cbn [within run]; try reflexivity; try apply IH.
  destruct (e p); [apply IH | reflexivity].
Qed.

Lemma run_consume {S R : Type} (e : Engine) (client : Consumer R) :
  forall (it : AsyncResultStreamIterator.t) (s : S) (t : Trace),
    run e (AsyncResultStreamIterator.consume client it) s t =
    let '(it', t', o) := opening e client it t in
    (s, t', match o with
            | Returned r => Returned (it', r)
            | Thrown x => Thrown x
            end).
Proof.
  induction client as [r|x|k IH]; intros it s t;
    cbn [AsyncResultStreamIterator.consume opening]; try reflexivity.
  rewrite run_bind, run_within.
  destruct (run e AsyncResultStreamIterator.next it t) as [[it' t'] ended].
  cbn [fst snd]. apply IH.
Qed.

(** ** The result stream iterator, one call at a time *)

Module Stream.
Import AsyncResultStreamIterator.

(** The first call hands out the header and touches nothing else. *)
Lemma call_next_first (e : Engine) (it : t) (tr : Trace) :
  _first it = true ->
  call_next e it tr =
    (set_first false it,
     tr ++ [EvNext (Returned (chunk_result (header it)))],
     Returned (chunk_result (header it))).
Proof.
  destruct it as [d c h f dp fl]; simpl; intros ->. run_next. reflexivity.
Qed.

(** A depleted iterator answers [done] and stays as it is. *)
Lemma call_next_depleted (e : Engine) (it : t) (tr : Trace) :
  _first it = false -> _depleted it = true ->
  call_next e it tr = (it, tr ++ [EvNext (Returned done_result)], Returned done_result).
Proof.
  destruct it as [d c h f dp fl]; simpl; intros -> ->. run_next. reflexivity.
Qed.

(** The awaited fetch is rejected: the call throws, no field is written. *)
Lemma call_next_rejected (e : Engine) (it : t) (tr : Trace) (x : Error) :
  _first it = false -> _depleted it = false ->
  e (awaited it tr) = Rejected x ->
  call_next e it tr =
    (it,
     upto_await it tr ++ [EvSettle (awaited it tr) (Rejected x)] ++ [EvNext (Thrown x)],
     Thrown x).
Proof.
  destruct it as [d c h f dp [p|]]; simpl; intros -> -> E; run_next;
    unfold awaited in E; simpl in E; rewrite E; rewrite <- ?app_assoc; reflexivity.
Qed.

(** The awaited fetch delivers a zero-length buffer: the stream is depleted. *)
Lemma call_next_end (e : Engine) (it : t) (tr : Trace) (v : Value) :
  _first it = false -> _depleted it = false ->
  e (awaited it tr) = Fulfilled v -> as_buffer v = [] ->
  call_next e it tr =
    (set_inFlight None (set_depleted true it),
     upto_await it tr ++ [EvSettle (awaited it tr) (Fulfilled v)]
       ++ [EvNext (Returned (mkIteratorResult true (Some [])))],
     Returned (mkIteratorResult true (Some []))).
Proof.
  destruct it as [d c h f dp [p|]]; simpl; intros -> -> E B; run_next;
    unfold awaited in E; simpl in E; rewrite E; simpl; rewrite B; simpl;
    rewrite <- ?app_assoc; reflexivity.
Qed.

(** The awaited fetch delivers data: the following fetch is issued and kept
    in the in-flight slot before the chunk goes back to the caller. *)
Lemma call_next_chunk (e : Engine) (it : t) (tr : Trace) (v : Value) :
  _first it = false -> _depleted it = false ->
  e (awaited it tr) = Fulfilled v -> as_buffer v <> [] ->
  call_next e it tr =
    (set_inFlight (Some (issued (upto_await it tr))) it,
     upto_await it tr ++ [EvSettle (awaited it tr) (Fulfilled v)]
       ++ [EvIssue (issued (upto_await it tr)) (fetch_request it)]
       ++ [EvNext (Returned (chunk_result (as_buffer v)))],
     Returned (chunk_result (as_buffer v))).
Proof.
  destruct it as [d c h f dp [p|]]; simpl; intros -> -> E B; run_next;
    unfold awaited in E; simpl in E; rewrite E; simpl;
    (destruct (as_buffer v) as [|b bs] eqn:Hb; [congruence|]); simpl;
    rewrite ?issued_snoc_settle, <- ?app_assoc; reflexivity.
Qed.

(** *** Several calls *)

Lemma nexts_S (e : Engine) (n : nat) (it : t) (tr : Trace) :
  nexts e (S n) it tr =
    let '(it', tr', o) := call_next e it tr in
    let '(it'', tr'', os) := nexts e n it' tr' in
    (it'', tr'', o :: os).
Proof. reflexivity. Qed.

(** *** Serialization of a trace *)

Lemma snoc_split {A : Type} (l l1 l2 : list A) (a x : A) :
  l ++ [a] = l1 ++ x :: l2 ->
  (l2 = [] /\ l = l1 /\ a = x) \/ (exists l2', l2 = l2' ++ [a] /\ l = l1 ++ x :: l2').
Proof.
  intros H. destruct (exists_last (l := x :: l2)) as [l' [y Hy]]; [discriminate|].
  destruct l2 as [|z l2].
  - left. apply app_inj_tail in H. destruct H; subst. auto.
  - right. destruct l' as [|x' l']; simpl in Hy.
    + destruct l2; discriminate.
    + injection Hy as -> Hy. rewrite Hy in H.
      change (l ++ [a] = l1 ++ (x' :: l') ++ [y]) in H.
      rewrite app_assoc in H. apply app_inj_tail in H. destruct H as [-> ->].
      exists l'. auto.
Qed.

Lemma serialized_nil : serialized [].
Proof. intros t1 p rq t2 H. destruct t1; discriminate. Qed.

Lemma serialized_snoc_quiet (tr : Trace) (ev : Event) :
  serialized tr -> is_issue ev = false -> serialized (tr ++ [ev]).
Proof.
  intros Hs Hev t1 p rq t2 H. apply snoc_split in H.
  destruct H as [(_ & _ & ->) | (t2' & _ & ->)].
  - discriminate.
  - eapply Hs. reflexivity.
Qed.

Lemma serialized_snoc_issue (tr : Trace) (p : Promise) (rq : Request) :
  serialized tr -> outstanding tr = [] -> serialized (tr ++ [EvIssue p rq]).
Proof.
  intros Hs Ho t1 q rq' t2 H. apply snoc_split in H.
  destruct H as [(_ & -> & _) | (t2' & _ & ->)].
  - exact Ho.
  - eapply Hs. reflexivity.
Qed.

Lemma serialized_at_most_one (tr : Trace) :
  serialized tr -> at_most_one_outstanding tr.
Proof.
  intros Hs t1. induction t1 as [|ev t1 IH] using rev_ind; intros t2 H.
  - simpl. lia.
  - rewrite outstanding_snoc. rewrite <- app_assoc in H. simpl in H.
    specialize (IH _ H). destruct ev; cbn [track]; try exact IH.
    + rewrite (Hs _ _ _ _ H). simpl. lia.
    + eapply Nat.le_trans; [apply remove_length_le | exact IH].
Qed.

(** *** What holds between two calls *)

Lemma outstanding_upto_await (it : t) (tr : Trace) :
  between_calls it tr ->
  serialized (upto_await it tr)
  /\ (outstanding (upto_await it tr) = [awaited it tr] \/ outstanding (upto_await it tr) = []).
Proof.
  intros I. unfold upto_await, awaited. destruct (_inFlight it) as [p|] eqn:Hf.
  - split; [apply I | apply (inv_slot I), Hf].
  - pose proof (inv_idle I Hf) as Ho. split.
    + apply serialized_snoc_issue; [apply I | exact Ho].
    + left. rewrite outstanding_snoc, Ho. reflexivity.
Qed.

Lemma outstanding_settled (tr : Trace) (p : Promise) (r : Settled) :
  outstanding tr = [p] \/ outstanding tr = [] ->
  outstanding (tr ++ [EvSettle p r]) = [].
Proof.
  intros H. rewrite outstanding_snoc. simpl.
  destruct H as [-> | ->]; simpl; [|reflexivity].
  destruct (Nat.eq_dec p p); [reflexivity | contradiction].
Qed.

Lemma between_calls_fresh (d : AsyncDuckDB) (c : N) (h : Uint8Array) :
  between_calls (constructor d c h) [].
Proof.
  split; simpl; try discriminate; auto using serialized_nil.
Qed.

Lemma between_calls_next (e : Engine) (it : t) (tr : Trace) :
  between_calls it tr ->
  between_calls (fst (fst (call_next e it tr))) (snd (fst (call_next e it tr))).
Proof.
  intros I.
  destruct (_first it) eqn:Hfirst.
  { (* the header *)
    rewrite call_next_first by exact Hfirst. simpl.
    assert (_inFlight it = None) as Hnone.
    { destruct (_inFlight it) as [p|] eqn:Hf; [|reflexivity].
      destruct (inv_slot I Hf) as (H & _). congruence. }
    split; simpl.
    - apply serialized_snoc_quiet; [apply I | reflexivity].
    - reflexivity.
    - intros _. rewrite outstanding_snoc. simpl. apply (inv_idle I Hnone).
    - intros p Hp. congruence. }
  destruct (_depleted it) eqn:Hdep.
  { (* after the end *)
    rewrite call_next_depleted by assumption. simpl.
    assert (_inFlight it = None) as Hnone.
    { destruct (_inFlight it) as [p|] eqn:Hf; [|reflexivity].
      destruct (inv_slot I Hf) as (_ & H & _). congruence. }
    split; simpl.
    - apply serialized_snoc_quiet; [apply I | reflexivity].
    - intros _. exact Hfirst.
    - intros _. rewrite outstanding_snoc. simpl. apply (inv_idle I Hnone).
    - intros p Hp. congruence. }
  destruct (outstanding_upto_await I) as [Hs Ho].
  destruct (e (awaited it tr)) as [v|x] eqn:He.
  - destruct (as_buffer v) as [|b bs] eqn:Hb.
    + (* end of stream *)
      rewrite (call_next_end e it tr Hfirst Hdep He Hb). cbn [fst snd].
      rewrite app_assoc. split.
      * repeat (apply serialized_snoc_quiet; [|reflexivity]). exact Hs.
      * intros _. exact Hfirst.
      * intros _. rewrite outstanding_snoc. cbn [track].
        apply outstanding_settled. exact Ho.
      * simpl. discriminate.
    + (* a chunk, and the next fetch *)
      assert (as_buffer v <> []) as Hne by congruence.
      rewrite (call_next_chunk e it tr Hfirst Hdep He Hne). cbn [fst snd].
      pose proof (@outstanding_settled _ _ (Fulfilled v) Ho) as Ho'.
      rewrite !app_assoc. split.
      * apply serialized_snoc_quiet; [|reflexivity].
        apply serialized_snoc_issue; [|exact Ho'].
        apply serialized_snoc_quiet; [exact Hs | reflexivity].
      * simpl. congruence.
      * simpl. discriminate.
      * simpl. intros p Hp. injection Hp as <-. repeat split; try assumption.
        -- exists (upto_await it tr ++ [EvSettle (awaited it tr) (Fulfilled v)]),
             (as_buffer v), []. repeat split; auto.
           rewrite <- (app_assoc _ [_] [_]). reflexivity.
        -- left. rewrite !outstanding_snoc, <- outstanding_snoc, Ho'.
           reflexivity.
  - (* the awaited fetch is rejected *)
    rewrite (call_next_rejected e it tr Hfirst Hdep He). cbn [fst snd].
    pose proof (@outstanding_settled _ _ (Rejected x) Ho) as Ho'.
    rewrite app_assoc.
    assert (outstanding ((upto_await it tr ++ [EvSettle (awaited it tr) (Rejected x)])
              ++ [EvNext (Thrown x)]) = []) as Hout.
    { rewrite outstanding_snoc. cbn [track]. exact Ho'. }
    split.
    + repeat (apply serialized_snoc_quiet; [|reflexivity]). exact Hs.
    + apply I.
    + intros _. exact Hout.
    + intros p Hp.
      destruct (inv_slot I Hp) as (_ & _ & (t1 & buffer & att & Ht & Hne & Hatt) & _).
      repeat split; try assumption.
      * unfold upto_await, awaited. rewrite Hp.
        exists t1, buffer, (att ++ [EvSettle p (Rejected x); EvNext (Thrown x)]).
        repeat split; auto.
        -- rewrite Ht, <- !app_assoc. reflexivity.
        -- apply Forall_app. split; [exact Hatt|].
           repeat constructor.
      * right. exact Hout.
Qed.

Lemma between_calls_nexts (e : Engine) (n : nat) : forall (it : t) (tr : Trace),
  between_calls it tr ->
  between_calls (fst (fst (nexts e n it tr))) (snd (fst (nexts e n it tr))).
Proof.
  induction n as [|n IH]; intros it tr I; [exact I|].
  rewrite nexts_S. pose proof (between_calls_next e I) as I1.
  destruct (call_next e it tr) as [[it1 tr1] o]. simpl in I1.
  specialize (IH _ _ I1).
  destruct (nexts e n it1 tr1) as [[it2 tr2] os]. exact IH.
Qed.
(** *** Terminal states *)

Lemma nexts_depleted (e : Engine) (it : t) (n : nat) : forall (tr : Trace),
  _first it = false -> _depleted it = true ->
  nexts e n it tr =
    (it, tr ++ repeat (EvNext (Returned done_result)) n, repeat (Returned done_result) n).
Proof.
  induction n as [|n IH]; intros tr Hf Hd.
  - simpl. rewrite app_nil_r. reflexivity.
  - rewrite nexts_S, call_next_depleted by assumption.
    rewrite IH by assumption. simpl. rewrite <- app_assoc. reflexivity.
Qed.

Lemma nexts_rejected (e : Engine) (it : t) (p : Promise) (x : Error) (n : nat) :
  forall (tr : Trace),
  _first it = false -> _depleted it = false ->
  _inFlight it = Some p -> e p = Rejected x ->
  nexts e n it tr =
    (it,
     tr ++ concat (repeat [EvSettle p (Rejected x); EvNext (Thrown x)] n),
     repeat (Thrown x) n).
Proof.
  induction n as [|n IH]; intros tr Hf Hd Hp He.
  - simpl. rewrite app_nil_r. reflexivity.
  - assert (e (awaited it tr) = Rejected x) as He'
      by (unfold awaited; rewrite Hp; exact He).
    rewrite nexts_S, (call_next_rejected e it tr Hf Hd He').
    unfold upto_await, awaited. rewrite Hp.
    rewrite IH by assumption. simpl. rewrite <- !app_assoc. reflexivity.
Qed.

Lemma depleted_after_header (e : Engine) (it : t) (tr : Trace) :
  (_depleted it = true -> _first it = false) ->
  _depleted (fst (fst (call_next e it tr))) = true ->
  _first (fst (fst (call_next e it tr))) = false.
Proof.
  intros H.
  destruct (_first it) eqn:Hfirst.
  { rewrite call_next_first by exact Hfirst. simpl. reflexivity. }
  destruct (_depleted it) eqn:Hdep.
  { rewrite call_next_depleted by assumption. simpl. intros _. exact Hfirst. }
  destruct (e (awaited it tr)) as [v|x] eqn:He.
  - destruct (as_buffer v) as [|b bs] eqn:Hb.
    + rewrite (call_next_end e it tr Hfirst Hdep He Hb). simpl. intros _. exact Hfirst.
    + assert (as_buffer v <> []) as Hne by congruence.
      rewrite (call_next_chunk e it tr Hfirst Hdep He Hne). simpl. congruence.
  - rewrite (call_next_rejected e it tr Hfirst Hdep He). simpl. congruence.
Qed.

Lemma depleted_after_header_nexts (e : Engine) (n : nat) : forall (it : t) (tr : Trace),
  (_depleted it = true -> _first it = false) ->
  _depleted (fst (fst (nexts e n it tr))) = true ->
  _first (fst (fst (nexts e n it tr))) = false.
Proof.
  induction n as [|n IH]; intros it tr H; [exact H|].
  rewrite nexts_S. pose proof (@depleted_after_header e it tr H) as H1.
  destruct (call_next e it tr) as [[it1 tr1] o]. simpl in H1.
  specialize (IH it1 tr1 H1).
  destruct (nexts e n it1 tr1) as [[it2 tr2] os]. exact IH.
Qed.

(** *** The claims about the iterator *)

(** C1.  The engine delivers the header "HEADER" and answers the fetches on
    connection 1 with "A", "B" and an empty chunk.  Four awaited [next()]
    calls then return ("HEADER", done=false), ("A", false), ("B", false) and
    (empty, done=true).  The first call returns the header and issues no
    request.  Three [fetchQueryResults] requests are issued in all, and the
    fetch for the following chunk is in the trace before the [next()] call
    that returns the current chunk ends. *)
Theorem header_then_chunks :
  let engine := scripted [Fulfilled (VBuffer (bytes "A"));
                          Fulfilled (VBuffer (bytes "B"));
                          Fulfilled (VBuffer [])] in
  let it0 := constructor (Worker 0) 1 (bytes "HEADER") in
  let fetch := mkRequest (Worker 0) (Binding.fetchQueryResults 1) in
  let header := Returned (chunk_result (bytes "HEADER")) in
  let a := Returned (chunk_result (bytes "A")) in
  let b := Returned (chunk_result (bytes "B")) in
  let last := Returned (mkIteratorResult true (Some [])) in
  call_next engine it0 [] = (set_first false it0, [EvNext header], header)
  /\ snd (nexts engine 4 it0 []) = [header; a; b; last]
  /\ snd (fst (nexts engine 4 it0 [])) =
       [EvNext header;
        EvIssue 0 fetch; EvSettle 0 (Fulfilled (VBuffer (bytes "A")));
        EvIssue 1 fetch; EvNext a;
        EvSettle 1 (Fulfilled (VBuffer (bytes "B")));
        EvIssue 2 fetch; EvNext b;
        EvSettle 2 (Fulfilled (VBuffer []));
        EvNext last]
  /\ requests (snd (fst (nexts engine 4 it0 []))) = [fetch; fetch; fetch]
  /\ issued (snd (fst (nexts engine 4 it0 []))) = 3.
Proof.
  cbv zeta. repeat split; vm_compute; reflexivity.
Qed.

(** C2.  Once a stream created by the constructor has reached depletion,
    every further [next()] call returns [{ done: true, value: null }], an
    empty result, for any number [n] of further calls; the iterator stays
    as it is and no request is issued by any of those calls. *)
Theorem next_after_depletion (e : Engine) (d : AsyncDuckDB) (c : N) (h : Uint8Array)
    (tr0 : Trace) (k n : nat) :
  let '(it, tr, _) := nexts e k (constructor d c h) tr0 in
  _depleted it = true ->
  nexts e n it tr =
    (it, tr ++ repeat (EvNext (Returned done_result)) n, repeat (Returned done_result) n)
  /\ is_empty done_result = true
  /\ done done_result = true
  /\ requests (snd (fst (nexts e n it tr))) = requests tr.
Proof.
  pose proof (@depleted_after_header_nexts e k (constructor d c h) tr0) as H.
  destruct (nexts e k (constructor d c h) tr0) as [[it tr] os]. simpl in H.
  intros Hd. specialize (H (fun _ => ltac:(discriminate)) Hd).
  rewrite (nexts_depleted e it n tr H Hd). repeat split. simpl.
  rewrite requests_app.
  assert (requests (repeat (EvNext (Returned done_result)) n) = []) as ->.
  { induction n as [|n IH]; simpl; auto. }
  apply app_nil_r.
Qed.

Lemma next_after_depletion_witness :
  let engine := scripted [Fulfilled (VBuffer (bytes "A")); Fulfilled (VBuffer [])] in
  let fresh := constructor (Worker 0) 1 (bytes "HEADER") in
  let it := fst (fst (nexts engine 3 fresh [])) in
  let tr := snd (fst (nexts engine 3 fresh [])) in
  _depleted it = true
  /\ nexts engine 5 it tr =
       (it, tr ++ repeat (EvNext (Returned done_result)) 5, repeat (Returned done_result) 5).
Proof.
  cbv zeta. split; [reflexivity|].
  exact (proj1 (@next_after_depletion
                  (scripted [Fulfilled (VBuffer (bytes "A")); Fulfilled (VBuffer [])])
                  (Worker 0) 1%N (bytes "HEADER") [] 3 5 eq_refl)).
Defined.

Lemma failed_attempts_idle (p : Promise) (attempts : Trace) :
  Forall (failed_attempt p) attempts -> fold_left track attempts [] = [].
Proof.
  induction 1 as [|ev rest Hev _ IH]; [reflexivity|].
  destruct ev as [l|w|q rq|q [v|x]|[r|x]]; simpl in Hev; try contradiction; exact IH.
Qed.

Lemma failed_attempts_settle (p : Promise) (attempts : Trace) :
  Forall (failed_attempt p) attempts ->
  fold_left track attempts [p] = [p]
  \/ (fold_left track attempts [p] = []
      /\ exists x, In (EvSettle p (Rejected x)) attempts).
Proof.
  induction 1 as [|ev rest Hev Hrest IH]; [left; reflexivity|].
  destruct ev as [l|w|q rq|q [v|x]|[r|x]]; simpl in Hev; try contradiction.
  - subst q. right. cbn [fold_left track remove].
    destruct (Nat.eq_dec p p); [|contradiction]. split.
    + apply (failed_attempts_idle Hrest).
    + exists x. left. reflexivity.
  - cbn [fold_left track]. destruct IH as [IH | (IH & x' & Hin)]; [left; exact IH|].
    right. split; [exact IH|]. exists x'. right. exact Hin.
Qed.

(** C3, amended.  For every engine and every number of [next()] calls on an
    iterator, each awaited before the following one is made: at every instant
    of the trace at most one fetch is outstanding, and no fetch is issued
    while an earlier one is pending.  Between two calls the in-flight slot
    holds a promise only if that fetch was issued right before a non-empty
    chunk went back to the caller and no later call has received its data.
    That fetch is then either the one outstanding request, or a later call
    has awaited it, found it rejected and failed; in that case the promise
    stays in the slot with nothing outstanding.  With an empty slot nothing
    is outstanding. *)
Theorem one_fetch_outstanding (e : Engine) (d : AsyncDuckDB) (c : N) (h : Uint8Array)
    (n : nat) :
  let '(it, tr, _) := nexts e n (constructor d c h) [] in
  at_most_one_outstanding tr
  /\ serialized tr
  /\ match _inFlight it with
     | Some p =>
         prefetched it tr p
         /\ (outstanding tr = [p]
             \/ (outstanding tr = [] /\ exists x, In (EvSettle p (Rejected x)) tr))
     | None => outstanding tr = []
     end.
Proof.
  pose proof (@between_calls_nexts e n _ _ (between_calls_fresh d c h)) as I.
  destruct (nexts e n (constructor d c h) []) as [[it tr] os]. simpl in I.
  split; [apply serialized_at_most_one, I|].
  split; [apply I|].
  destruct (_inFlight it) as [p|] eqn:Hf.
  - destruct (inv_slot I Hf) as (_ & _ & Hp & _). split; [exact Hp|].
    destruct Hp as (t1 & buffer & attempts & Ht & _ & Hatt).
    pose proof (inv_serialized I _ _ _ _ Ht) as Hidle.
    assert (outstanding tr = fold_left track attempts [p]) as Hout.
    { rewrite Ht. unfold outstanding. rewrite fold_left_app. fold (outstanding t1).
      rewrite Hidle. reflexivity. }
    rewrite Hout.
    destruct (failed_attempts_settle Hatt) as [H | (H & x & Hin)]; [left; exact H|].
    right. split; [exact H|]. exists x. rewrite Ht. apply in_or_app. right.
    right. right. exact Hin.
  - apply (inv_idle I Hf).
Qed.

(** C3, as the claim states it, fails in two ways.  Two [next()] calls that
    overlap on a streaming iterator each issue a fetch, so two fetches are
    outstanding at once.  And with calls that are awaited, after the chunk
    "A" the prefetch is rejected: the call that awaits it fails, and so does
    the one after it, while the in-flight slot still holds that promise and
    nothing is outstanding. *)
Lemma two_fetches_and_a_stale_slot :
  let it := mk (Worker 0) 1 (bytes "HEADER") false false None in
  let one := start next it [] in
  let two := start next (fst (fst one)) (snd (fst one)) in
  let e := scripted [Fulfilled (VBuffer (bytes "A")); Rejected "boom"] in
  let after := nexts e 4 (constructor (Worker 0) 1 (bytes "HEADER")) [] in
  outstanding (snd (fst two)) = [0; 1]
  /\ snd after = [Returned (chunk_result (bytes "HEADER"));
                  Returned (chunk_result (bytes "A"));
                  Thrown "boom"; Thrown "boom"]
  /\ _inFlight (fst (fst after)) = Some 1
  /\ outstanding (snd (fst after)) = [].
Proof. cbv zeta. repeat split. Qed.

(** C4, as the claim states it, fails: the engine rejects the first fetch
    and fulfils the second one; the second [next()] call throws and the
    third one yields the chunk "A". *)
Lemma failed_fetch_is_retried :
  snd (nexts (scripted [Rejected "boom"; Fulfilled (VBuffer (bytes "A"))]) 3
         (constructor (Worker 0) 1 (bytes "HEADER")) [])
  = [Returned (chunk_result (bytes "HEADER"));
     Thrown "boom";
     Returned (chunk_result (bytes "A"))].
Proof. vm_compute. reflexivity. Qed.

(** C4, amended.  When the fetch a streaming [next()] call awaits is
    rejected, that call fails with the error and writes no field.  If the
    rejected fetch was the pre-issued one, it stays in the in-flight slot:
    every later call fails with the same error and issues no request.  If
    it was issued inside [next()], the slot is still empty: the following
    call issues a fresh fetch and, when that one delivers data, returns the
    chunk. *)
Theorem fetch_failure (e : Engine) (it : t) (tr : Trace) (x : Error) :
  _first it = false -> _depleted it = false ->
  e (awaited it tr) = Rejected x ->
  call_next e it tr =
    (it,
     upto_await it tr ++ [EvSettle (awaited it tr) (Rejected x); EvNext (Thrown x)],
     Thrown x)
  /\ (forall p, _inFlight it = Some p ->
      forall n, nexts e n it tr =
        (it,
         tr ++ concat (repeat [EvSettle p (Rejected x); EvNext (Thrown x)] n),
         repeat (Thrown x) n))
  /\ (_inFlight it = None ->
      forall v, e (S (issued tr)) = Fulfilled v -> as_buffer v <> [] ->
      snd (nexts e 2 it tr) = [Thrown x; Returned (chunk_result (as_buffer v))]).
Proof.
  intros Hf Hd He. split; [|split].
  - apply (call_next_rejected e it tr Hf Hd He).
  - intros p Hp n. apply nexts_rejected; try assumption.
    unfold awaited in He. rewrite Hp in He. exact He.
  - intros Hnone v Hv Hne.
    rewrite nexts_S, (call_next_rejected e it tr Hf Hd He).
    set (tr1 := upto_await it tr ++ _).
    assert (awaited it tr1 = S (issued tr)) as Ha.
    { unfold awaited, tr1, upto_await. rewrite Hnone.
      rewrite !issued_app. unfold issued. simpl. lia. }
    rewrite nexts_S.
    rewrite <- Ha in Hv.
    rewrite (call_next_chunk e it tr1 Hf Hd Hv Hne). reflexivity.
Qed.

Lemma fetch_failure_witness :
  let engine := scripted [Fulfilled (VBuffer (bytes "A")); Rejected "boom"] in
  let fresh := constructor (Worker 0) 1 (bytes "HEADER") in
  let it := fst (fst (nexts engine 2 fresh [])) in
  let tr := snd (fst (nexts engine 2 fresh [])) in
  _inFlight it = Some 1
  /\ nexts engine 4 it tr =
       (it,
        tr ++ concat (repeat [EvSettle 1 (Rejected "boom"); EvNext (Thrown "boom")] 4),
        repeat (Thrown "boom") 4).
Proof.
  cbv zeta. split; [reflexivity|].
  exact (proj1 (proj2 (@fetch_failure
                  (scripted [Fulfilled (VBuffer (bytes "A")); Rejected "boom"])
                  (fst (fst (nexts (scripted [Fulfilled (VBuffer (bytes "A")); Rejected "boom"])
                               2 (constructor (Worker 0) 1 (bytes "HEADER")) [])))
                  (snd (fst (nexts (scripted [Fulfilled (VBuffer (bytes "A")); Rejected "boom"])
                               2 (constructor (Worker 0) 1 (bytes "HEADER")) [])))
                  "boom" eq_refl eq_refl eq_refl)) 1 eq_refl 4).
Defined.
End Stream.

(** ** The insertion pipeline *)

Module Insertion.
Import AsyncDuckDBConnection.

Section WithArrow.
Context {arrow : Arrow}.
Variables (e : Engine) (c : AsyncDuckDBConnection.t) (options : ArrowInsertOptions).

Lemma send_all_issued (messages : list Uint8Array) : forall (p : Promise) (tr : Trace),
  issued tr = p ->
  snd (send_all e c options p messages) = Returned tt ->
  issued (tr ++ fst (send_all e c options p messages)) = p + length messages.
Proof.
  induction messages as [|m ms IH]; intros p tr Hp Ho; simpl.
  - rewrite app_nil_r. lia.
  - simpl in Ho. destruct (e p) as [v|x] eqn:He.
    + destruct (send_all e c options (S p) ms) as [t o] eqn:Hs. simpl in *.
      specialize (IH (S p) (tr ++ [EvIssue p (ingest c options m); EvSettle p (Fulfilled v)])).
      rewrite Hs in IH. simpl in IH. rewrite <- app_assoc in IH. simpl in IH.
      rewrite IH; [lia| |exact Ho].
      rewrite issued_app. unfold issued at 2. simpl. lia.
    + discriminate.
Qed.

Lemma send_all_app (ms1 ms2 : list Uint8Array) : forall (p : Promise),
  send_all e c options p (ms1 ++ ms2) =
    match send_all e c options p ms1 with
    | (t1, Returned _) =>
        let (t2, o) := send_all e c options (p + length ms1) ms2 in (t1 ++ t2, o)
    | (t1, Thrown x) => (t1, Thrown x)
    end.
Proof.
  induction ms1 as [|m ms IH]; intros p; simpl.
  - rewrite Nat.add_0_r. destruct (send_all e c options p ms2). reflexivity.
  - destruct (e p) as [v|x]; [|reflexivity].
    rewrite IH. replace (p + S (length ms)) with (S p + length ms) by lia.
    destruct (send_all e c options (S p) ms) as [t1 [[]|x]]; [|reflexivity].
    destruct (send_all e c options (S p + length ms) ms2) as [t2 o]. reflexivity.
Qed.

(** The loop, once [first] is off. *)
Lemma for_batches_run (batches : list RecordBatch) :
  forall (buffer : IPCBuffer.t) (writer : RecordBatchStreamWriter) (tr : Trace),
  run e (for_batches options batches false buffer writer) c tr =
    let (messages, buffer') := flushes buffer (fst (written writer batches)) in
    let (t, o) := send_all e c options (issued tr) messages in
    (c, tr ++ t,
     match o with
     | Returned _ => Returned (buffer', snd (written writer batches))
     | Thrown x => Thrown x
     end).
Proof.
  induction batches as [|batch rest IH]; intros buffer writer tr.
  - simpl. rewrite app_nil_r. reflexivity.
  - cbn [for_batches written negb]. unfold this, call, await. cbn [bind run IPCBuffer.flush].
    destruct (writer_write writer batch) as [writer' block] eqn:Hw.
    destruct (written writer' rest) as [blocks writer''] eqn:Hwr.
    cbn [fst snd flushes].
    destruct (flushes (IPCBuffer.write [] block) blocks) as [messages buffer'] eqn:Hfl.
    cbn [send_all IPCBuffer.flush fst].
    destruct (e (issued tr)) as [v|x] eqn:He.
    + cbn [bind run]. rewrite IH, Hwr. cbn [fst snd]. rewrite Hfl.
      rewrite issued_snoc_settle, issued_snoc_issue.
      destruct (send_all e c options (S (issued tr)) messages) as [t o].
      rewrite <- !app_assoc. reflexivity.
    + rewrite <- app_assoc. reflexivity.
Qed.

(** The flushes of the loop and the final flush are the messages of the
    specification. *)
Lemma flushes_seal (blocks : list Uint8Array) : forall (buffer : IPCBuffer.t) (fin : Uint8Array),
  fst (flushes buffer blocks)
    ++ [fst (IPCBuffer.flush (IPCBuffer.write (snd (flushes buffer blocks)) fin))]
  = seal (concat buffer) blocks fin.
Proof.
  induction blocks as [|block later IH]; intros buffer fin.
  - simpl. unfold IPCBuffer.write. rewrite concat_app. simpl.
    rewrite app_nil_r. reflexivity.
  - cbn [flushes seal].
    destruct (flushes (IPCBuffer.write [] block) later) as [messages buffer'] eqn:Hfl.
    specialize (IH (IPCBuffer.write [] block) fin). rewrite Hfl in IH.
    cbn [fst snd IPCBuffer.flush] in IH |- *. simpl app. f_equal.
    rewrite IH. unfold IPCBuffer.write. simpl.
    rewrite app_nil_r. reflexivity.
Qed.

(** The whole pipeline issues the messages of the specification, one after
    the other, and stops at the first rejection. *)
Lemma insertArrowBatches_run (schema : Schema) (batches : list RecordBatch) (tr : Trace) :
  run e (insertArrowBatches schema batches options) c tr =
    (c,
     tr ++ fst (send_all e c options (issued tr) (payloads schema batches)),
     snd (send_all e c options (issued tr) (payloads schema batches))).
Proof.
  unfold insertArrowBatches, payloads, header_block, batch_blocks, trailer.
  destruct (writer_reset schema) as [w0 hdr] eqn:Hreset. cbn [fst snd].
  rewrite run_bind.
  destruct batches as [|batch rest].
  - cbn [for_batches run written fst snd].
    destruct (writer_finish w0) as [w fin]. cbn [snd].
    unfold this, call, await. cbn [bind run IPCBuffer.flush send_all].
    unfold IPCBuffer.write, IPCBuffer.new. simpl concat. rewrite app_nil_r.
    destruct (e (issued tr)) as [v|x]; cbn [bind run fst snd];
      rewrite <- !app_assoc; reflexivity.
  - cbn [for_batches negb bind written].
    destruct (writer_write w0 batch) as [w1 block] eqn:Hw.
    rewrite for_batches_run.
    destruct (written w1 rest) as [blocks wn] eqn:Hwr. cbn [fst snd].
    pose proof (flushes_seal blocks (IPCBuffer.write (IPCBuffer.write IPCBuffer.new hdr) block)
                  (snd (writer_finish wn))) as Hseal.
    destruct (flushes (IPCBuffer.write (IPCBuffer.write IPCBuffer.new hdr) block) blocks)
      as [messages buffer'] eqn:Hfl.
    cbn [fst snd] in Hseal.
    replace (concat (IPCBuffer.write (IPCBuffer.write IPCBuffer.new hdr) block))
      with (hdr ++ block) in Hseal
      by (unfold IPCBuffer.write, IPCBuffer.new; simpl; rewrite app_nil_r; reflexivity).
    rewrite <- Hseal, send_all_app.
    pose proof (send_all_issued messages (p := issued tr) tr eq_refl) as Hiss.
    destruct (send_all e c options (issued tr) messages) as [t [[]|x]]; cbn [fst snd] in *.
    + destruct (writer_finish wn) as [w fin]. cbn [snd].
      unfold this, call, await. cbn [bind run send_all IPCBuffer.flush fst].
      rewrite (Hiss eq_refl).
      destruct (e (issued tr + length messages)) as [v|x] eqn:He; cbn [bind run fst snd];
        rewrite <- ?app_assoc; reflexivity.
    + reflexivity.
Qed.

Lemma requests_exchanges (messages : list Uint8Array) : forall (p : Promise),
  requests (exchanges e c options p messages) = map (ingest c options) messages.
Proof.
  induction messages as [|m ms IH]; intros p; simpl; [reflexivity|].
  rewrite IH. reflexivity.
Qed.

Lemma send_all_fulfilled (messages : list Uint8Array) : forall (p : Promise),
  (forall k, k < length messages -> exists v, e (p + k) = Fulfilled v) ->
  send_all e c options p messages = (exchanges e c options p messages, Returned tt).
Proof.
  induction messages as [|m ms IH]; intros p H; simpl; [reflexivity|].
  destruct (H 0) as [v Hv]; [simpl; lia|]. rewrite Nat.add_0_r in Hv. rewrite Hv.
  rewrite IH; [reflexivity|].
  intros k Hk. replace (S p + k) with (p + S k) by lia. apply H. simpl. lia.
Qed.

Lemma send_all_rejected (messages : list Uint8Array) : forall (p k : nat) (x : Error),
  k < length messages ->
  (forall j, j < k -> exists v, e (p + j) = Fulfilled v) ->
  e (p + k) = Rejected x ->
  send_all e c options p messages =
    (exchanges e c options p (firstn (S k) messages), Thrown x).
Proof.
  induction messages as [|m ms IH]; intros p k x Hk Hok Hx; simpl in Hk; [lia|].
  destruct k as [|k].
  - rewrite Nat.add_0_r in Hx. simpl. rewrite Hx. reflexivity.
  - destruct (Hok 0) as [v Hv]; [lia|]. rewrite Nat.add_0_r in Hv.
    cbn [send_all firstn exchanges]. rewrite Hv.
    rewrite (IH (S p) k x); [reflexivity|lia| |].
    + intros j Hj. replace (S p + j) with (p + S j) by lia. apply Hok. lia.
    + replace (S p + k) with (p + S k) by lia. exact Hx.
Qed.

Lemma written_length (batches : list RecordBatch) : forall (writer : RecordBatchStreamWriter),
  length (fst (written writer batches)) = length batches.
Proof.
  induction batches as [|b bs IH]; intros writer; simpl; [reflexivity|].
  destruct (writer_write writer b) as [w blk]. specialize (IH w).
  destruct (written w bs). simpl in *. lia.
Qed.

Lemma seal_length (later : list Uint8Array) : forall (current fin : Uint8Array),
  length (seal current later fin) = S (length later).
Proof.
  induction later as [|b l IH]; intros current fin; simpl; [reflexivity|].
  rewrite IH. reflexivity.
Qed.

Lemma seal_nth (later : list Uint8Array) : forall (current fin : Uint8Array) (k : nat),
  k < S (length later) ->
  nth k (seal current later fin) [] =
    nth k (current :: later) [] ++ (if k =? length later then fin else [])%nat.
Proof.
  induction later as [|b l IH]; intros current fin k Hk; simpl in Hk.
  - replace k with 0 by lia. reflexivity.
  - destruct k as [|k].
    + simpl. rewrite app_nil_r. reflexivity.
    + cbn [seal nth length Nat.eqb]. apply IH. lia.
Qed.

Lemma payloads_length (schema : Schema) (batches : list RecordBatch) :
  length (payloads schema batches) = Nat.max 1 (length batches).
Proof.
  unfold payloads, batch_blocks.
  pose proof (written_length batches (fst (writer_reset schema))) as H.
  destruct (fst (written (fst (writer_reset schema)) batches)) as [|blk later].
  - simpl in *. rewrite <- H. reflexivity.
  - rewrite seal_length. simpl in H. lia.
Qed.

(** C5.  For a non-empty batch sequence of [n] batches, when the engine
    accepts every ingestion call, the pipeline issues exactly [n]
    ingestion calls, each awaited before the next one leaves.  Call [k]
    carries the block the writer emitted for batch [k] and nothing of a
    later batch, so it was flushed before the following batch was written;
    the schema message travels with the first call, and the trailing
    framing written by [finish] travels with the last one, which is
    therefore flushed after the writer was finished. *)
Theorem one_call_per_batch (schema : Schema) (batch : RecordBatch)
    (rest : list RecordBatch) (tr : Trace) :
  let batches := batch :: rest in
  let n := length batches in
  (forall k, k < n -> exists v, e (issued tr + k) = Fulfilled v) ->
  run e (insertArrowBatches schema batches options) c tr =
    (c, tr ++ exchanges e c options (issued tr) (payloads schema batches), Returned tt)
  /\ requests (exchanges e c options (issued tr) (payloads schema batches)) =
       map (ingest c options) (payloads schema batches)
  /\ length (payloads schema batches) = n
  /\ forall k, k < n ->
       nth k (payloads schema batches) [] =
         (if k =? 0 then header_block schema else [])%nat
         ++ nth k (batch_blocks schema batches) []
         ++ (if k =? n - 1 then trailer schema batches else [])%nat.
Proof.
  intros batches n H.
  assert (length (payloads schema batches) = n) as Hlen.
  { rewrite payloads_length. subst n batches. simpl. lia. }
  split; [|split; [|split]].
  - rewrite insertArrowBatches_run, send_all_fulfilled; [reflexivity|].
    rewrite Hlen. exact H.
  - apply requests_exchanges.
  - exact Hlen.
  - intros k Hk. unfold payloads.
    pose proof (written_length batches (fst (writer_reset schema))) as Hw.
    fold (batch_blocks schema batches) in Hw.
    destruct (batch_blocks schema batches) as [|blk later] eqn:Hb.
    + subst batches. simpl in Hw. discriminate.
    + assert (S (length later) = n) as Hn by exact Hw.
      rewrite seal_nth by (rewrite Hn; exact Hk).
      replace (n - 1) with (length later) by (rewrite <- Hn; simpl; lia).
      rewrite app_assoc. f_equal.
      destruct k as [|k]; reflexivity.
Qed.

(** C6.  For an empty batch sequence the pipeline issues exactly one
    ingestion call.  Its message is the schema message followed by the
    trailing framing, with no batch in between: the header-only stream of
    an empty table.  The call is awaited and the insertion ends as that
    call does. *)
Theorem empty_sequence_one_call (schema : Schema) (tr : Trace) :
  run e (insertArrowBatches schema [] options) c tr =
    (c,
     tr ++ [EvIssue (issued tr)
              (ingest c options (header_block schema ++ trailer schema []));
            EvSettle (issued tr) (e (issued tr))],
     match e (issued tr) with
     | Fulfilled _ => Returned tt
     | Rejected x => Thrown x
     end)
  /\ payloads schema [] = [header_block schema ++ trailer schema []]
  /\ batch_blocks schema [] = []
  /\ trailer schema [] = snd (writer_finish (fst (writer_reset schema))).
Proof.
  split; [|repeat split].
  rewrite insertArrowBatches_run.
  unfold payloads, batch_blocks. cbn [written fst send_all].
  destruct (e (issued tr)) as [v|x]; reflexivity.
Qed.

(** C7.  When ingestion call number [k] is the first one the engine
    rejects, the insertion fails with that error.  The calls made are the
    first [k + 1] messages, in order, and nothing else: no call is issued
    for the remaining batches, and nothing is issued to undo the calls
    that had succeeded. *)
Theorem failed_ingestion_stops (schema : Schema) (batches : list RecordBatch)
    (tr : Trace) (k : nat) (x : Error) :
  k < length (payloads schema batches) ->
  (forall j, j < k -> exists v, e (issued tr + j) = Fulfilled v) ->
  e (issued tr + k) = Rejected x ->
  run e (insertArrowBatches schema batches options) c tr =
    (c,
     tr ++ exchanges e c options (issued tr) (firstn (S k) (payloads schema batches)),
     Thrown x)
  /\ requests (exchanges e c options (issued tr) (firstn (S k) (payloads schema batches))) =
       map (ingest c options) (firstn (S k) (payloads schema batches))
  /\ length (firstn (S k) (payloads schema batches)) = S k.
Proof.
  intros Hk Hok Hx. split; [|split].
  - rewrite insertArrowBatches_run, (send_all_rejected _ _ Hk Hok Hx). reflexivity.
  - apply requests_exchanges.
  - rewrite length_firstn. lia.
Qed.
End WithArrow.

(** The empty table, with the recording encoder. *)
Example empty_table_message :
  let e : Engine := fun _ => Fulfilled VVoid in
  let c := AsyncDuckDBConnection.constructor (Worker 0) 1 in
  run e (insertArrowBatches (arrow := MockArrow.arrow) "s" [] "t") c []
  = (c,
     [EvIssue 0 (ingest c "t" (bytes "<schema:s><eos:>")); EvSettle 0 (Fulfilled VVoid)],
     Returned tt).
Proof. reflexivity. Qed.

Lemma one_call_per_batch_witness :
  let e : Engine := fun _ => Fulfilled VVoid in
  let c := AsyncDuckDBConnection.constructor (Worker 0) 1 in
  run e (insertArrowBatches (arrow := MockArrow.arrow) "s" ["B1"; "B2"; "B3"] "t") c []
  = (c,
     [EvIssue 0 (ingest c "t" (bytes "<schema:s><batch:B1>"));
      EvSettle 0 (Fulfilled VVoid);
      EvIssue 1 (ingest c "t" (bytes "<batch:B2>"));
      EvSettle 1 (Fulfilled VVoid);
      EvIssue 2 (ingest c "t" (bytes "<batch:B3><eos:>"));
      EvSettle 2 (Fulfilled VVoid)],
     Returned tt).
Proof.
  cbv zeta.
  exact (proj1 (@one_call_per_batch MockArrow.arrow (fun _ => Fulfilled VVoid)
                  (AsyncDuckDBConnection.constructor (Worker 0) 1) "t" "s" "B1" ["B2"; "B3"] []
                  (fun k _ => ex_intro _ VVoid eq_refl))).
Defined.

Lemma failed_ingestion_stops_witness :
  let e : Engine := scripted [Fulfilled VVoid; Rejected "disk full"] in
  let c := AsyncDuckDBConnection.constructor (Worker 0) 1 in
  run e (insertArrowBatches (arrow := MockArrow.arrow) "s" ["B1"; "B2"; "B3"] "t") c []
  = (c,
     [EvIssue 0 (ingest c "t" (bytes "<schema:s><batch:B1>"));
      EvSettle 0 (Fulfilled VVoid);
      EvIssue 1 (ingest c "t" (bytes "<batch:B2>"));
      EvSettle 1 (Rejected "disk full")],
     Thrown "disk full").
Proof.
  cbv zeta.
  assert (forall j, j < 1 ->
          exists v, scripted [Fulfilled VVoid; Rejected "disk full"] (issued [] + j)
                    = Fulfilled v) as Hok.
  { intros j Hj. exists VVoid. replace j with 0 by lia. reflexivity. }
  exact (proj1 (@failed_ingestion_stops MockArrow.arrow
                  (scripted [Fulfilled VVoid; Rejected "disk full"])
                  (AsyncDuckDBConnection.constructor (Worker 0) 1) "t" "s" ["B1"; "B2"; "B3"] []
                  1 "disk full" ltac:(vm_compute; lia) Hok eq_refl)).
Defined.
End Insertion.

(** ** Connections and prepared statements *)

Module Handles.

Lemma start_bind {S A B : Type} (m : Prog S A) (f : A -> Prog S B) :
  forall s tr,
    start (bind m f) s tr =
    match start m s tr with
    | (s', tr', Finished (Returned a)) => start (f a) s' tr'
    | (s', tr', Finished (Thrown x)) => (s', tr', Finished (Thrown x))
    | (s', tr', Waiting p k) => (s', tr', Waiting p (fun v => bind (k v) f))
    | (s', tr', Catching p k) => (s', tr', Catching p (fun r => bind (k r) f))
    end.
Proof.
  induction m as [a|x|k IH|s0 k IH|l k IH|w k IH|rq k IH|p k IH|p k IH]; intros s tr; simpl;
    try reflexivity; apply IH.
Qed.

Lemma issued_snoc_quiet (tr : Trace) (ev : Event) :
  is_issue ev = false -> issued (tr ++ [ev]) = issued tr.
Proof.
  intros H. rewrite issued_app. unfold issued at 2. simpl. rewrite H. simpl. lia.
Qed.

Lemma never_refuses_warned {S R : Type} (m : Prog S R) (s : S) (rq : Request) (w : string) :
  never_refuses m s rq -> never_refuses (Warn w m) s rq.
Proof.
  intros H tr. destruct (H (tr ++ [EvWarn w])) as (quiet & k & Hs & Hq).
  exists (EvWarn w :: quiet), k. simpl. rewrite Hs.
  rewrite issued_snoc_quiet by reflexivity. rewrite <- app_assoc. auto.
Qed.

Ltac starts quiet :=
  intros tr; eexists quiet, _;
  unfold this, call, await; cbn [bind start];
  rewrite ?issued_snoc_quiet by reflexivity; rewrite <- ?app_assoc;
  split; reflexivity.

Section WithArrow.
Context {arrow : Arrow}.

(** The first message of an insertion leaves in the synchronous part. *)
Lemma insertArrowBatches_starts (c : AsyncDuckDBConnection.t) (schema : Schema)
    (batches : list RecordBatch) (options : ArrowInsertOptions) :
  never_refuses (AsyncDuckDBConnection.insertArrowBatches schema batches options) c
    (ingest c options (hd [] (payloads schema batches))).
Proof.
  intros tr. unfold AsyncDuckDBConnection.insertArrowBatches, payloads, header_block,
    batch_blocks, trailer.
  destruct (writer_reset schema) as [w0 hdr]. cbn [fst snd].
  rewrite start_bind.
  destruct batches as [|b1 [|b2 rest]].
  - cbn [AsyncDuckDBConnection.for_batches start written fst snd].
    destruct (writer_finish w0) as [w fin]. cbn [snd hd]. eexists [], _.
    unfold this, call, await. cbn [bind start IPCBuffer.flush].
    unfold IPCBuffer.write, IPCBuffer.new. simpl concat. rewrite app_nil_r.
    split; reflexivity.
  - cbn [AsyncDuckDBConnection.for_batches negb bind written].
    destruct (writer_write w0 b1) as [w1 blk1]. cbn [start fst snd seal hd].
    destruct (writer_finish w1) as [w fin]. cbn [snd]. eexists [], _.
    unfold this, call, await. cbn [bind start IPCBuffer.flush].
    unfold IPCBuffer.write, IPCBuffer.new. simpl concat.
    rewrite app_nil_r, app_assoc.
    split; reflexivity.
  - cbn [AsyncDuckDBConnection.for_batches negb bind written].
    destruct (writer_write w0 b1) as [w1 blk1].
    destruct (writer_write w1 b2) as [w2 blk2].
    destruct (written w2 rest) as [blocks wn]. cbn [fst snd seal hd].
    eexists [], _.
    unfold this, call, await. cbn [bind start IPCBuffer.flush].
    unfold IPCBuffer.write, IPCBuffer.new. simpl concat. rewrite app_nil_r.
    split; reflexivity.
Qed.

Lemma insertArrowTable_starts (c : AsyncDuckDBConnection.t) (table : Table)
    (options : ArrowInsertOptions) :
  never_refuses (AsyncDuckDBConnection.insertArrowTable table options) c
    (ingest c options (hd [] (payloads (Table_schema table) (Table_chunks table)))).
Proof.
  unfold AsyncDuckDBConnection.insertArrowTable.
  destruct (Schema_fields_length (Table_schema table) =? 0)%nat; cbn [bind].
  - apply never_refuses_warned, insertArrowBatches_starts.
  - apply insertArrowBatches_starts.
Qed.

(** C8, amended.  Nothing enforces one request at a time.  A connection and
    a prepared statement keep no record of outstanding requests: whatever is
    already outstanding on the connection, each of their operations hands
    its request to the bindings in the synchronous part of the call and then
    awaits it.  An iterator looks at nothing but its own fields: the first
    call and a call on a depleted iterator return at once, a call that finds
    a promise in the in-flight slot awaits that promise, and a call on a
    streaming iterator with an empty slot issues a fetch whatever is
    outstanding.  No operation is ever refused; keeping the calls on one
    connection apart is left to the caller. *)
Theorem requests_are_never_refused (c : AsyncDuckDBConnection.t) :
  let db := AsyncDuckDBConnection._bindings c in
  let conn := AsyncDuckDBConnection._conn c in
  never_refuses AsyncDuckDBConnection.close c (mkRequest db (Binding.disconnect conn))
  /\ (forall text,
        never_refuses (AsyncDuckDBConnection.runQuery text) c
          (mkRequest db (Binding.runQuery conn text)))
  /\ (forall text,
        never_refuses (AsyncDuckDBConnection.sendQuery text) c
          (mkRequest db (Binding.sendQuery conn text)))
  /\ (forall text,
        never_refuses (AsyncDuckDBConnection.prepareStatement text) c
          (mkRequest db (Binding.createPrepared conn text)))
  /\ (forall schema batches options,
        never_refuses (AsyncDuckDBConnection.insertArrowBatches schema batches options) c
          (ingest c options (hd [] (payloads schema batches))))
  /\ (forall table options,
        never_refuses (AsyncDuckDBConnection.insertArrowTable table options) c
          (ingest c options (hd [] (payloads (Table_schema table) (Table_chunks table)))))
  /\ (forall children options,
        never_refuses (AsyncDuckDBConnection.insertArrowVectors children options) c
          (ingest c options
             (hd [] (payloads (Table_schema (Table_new children))
                              (Table_chunks (Table_new children))))))
  /\ (forall buffer options,
        never_refuses (AsyncDuckDBConnection.insertArrowFromIPCStream buffer options) c
          (ingest c options buffer))
  /\ (forall text options,
        never_refuses (AsyncDuckDBConnection.insertCSVFromPath text options) c
          (mkRequest db (Binding.insertCSVFromPath conn text options)))
  /\ (forall text options,
        never_refuses (AsyncDuckDBConnection.insertJSONFromPath text options) c
          (mkRequest db (Binding.insertJSONFromPath conn text options)))
  /\ (forall stmt params,
        never_refuses (AsyncPreparedStatement.run params)
          (AsyncPreparedStatement.constructor db conn stmt)
          (mkRequest db (Binding.runPrepared conn stmt params)))
  /\ (forall stmt params,
        never_refuses (AsyncPreparedStatement.send params)
          (AsyncPreparedStatement.constructor db conn stmt)
          (mkRequest db (Binding.sendPrepared conn stmt params)))
  /\ (forall stmt,
        never_refuses AsyncPreparedStatement.close
          (AsyncPreparedStatement.constructor db conn stmt)
          (mkRequest db (Binding.closePrepared conn stmt)))
  /\ (forall header,
        never_refuses AsyncResultStreamIterator.next
          (AsyncResultStreamIterator.mk db conn header false false None)
          (mkRequest db (Binding.fetchQueryResults conn)))
  /\ (forall (it : AsyncResultStreamIterator.t) (tr : Trace),
        refused (snd (start AsyncResultStreamIterator.next it tr)) = false
        /\ (if AsyncResultStreamIterator._first it then
              start AsyncResultStreamIterator.next it tr =
                (AsyncResultStreamIterator.set_first false it, tr,
                 Finished (Returned (chunk_result (AsyncResultStreamIterator.header it))))
            else if AsyncResultStreamIterator._depleted it then
              start AsyncResultStreamIterator.next it tr =
                (it, tr, Finished (Returned done_result))
            else
              match AsyncResultStreamIterator._inFlight it with
              | Some p =>
                  exists k, start AsyncResultStreamIterator.next it tr = (it, tr, Waiting p k)
              | None =>
                  exists k,
                    start AsyncResultStreamIterator.next it tr =
                      (it, tr ++ [EvIssue (issued tr) (fetch_request it)],
                       Waiting (issued tr) k)
              end)).
Proof.
  cbv zeta. repeat split; intros.
  - unfold AsyncDuckDBConnection.close. starts (@nil Event).
  - unfold AsyncDuckDBConnection.runQuery.
    starts [EvLog (AsyncDuckDBConnection.query_log text)].
  - unfold AsyncDuckDBConnection.sendQuery.
    starts [EvLog (AsyncDuckDBConnection.query_log text)].
  - unfold AsyncDuckDBConnection.prepareStatement. starts (@nil Event).
  - apply insertArrowBatches_starts.
  - apply insertArrowTable_starts.
  - apply insertArrowTable_starts.
  - unfold AsyncDuckDBConnection.insertArrowFromIPCStream. starts (@nil Event).
  - unfold AsyncDuckDBConnection.insertCSVFromPath. starts (@nil Event).
  - unfold AsyncDuckDBConnection.insertJSONFromPath. starts (@nil Event).
  - unfold AsyncPreparedStatement.run. starts (@nil Event).
  - unfold AsyncPreparedStatement.send. starts (@nil Event).
  - unfold AsyncPreparedStatement.close. starts (@nil Event).
  - unfold AsyncResultStreamIterator.next, modify. starts (@nil Event).
  - destruct it as [d0 c0 h [] [] [q|]]; reflexivity.
  - destruct it as [d0 c0 h [] [] [q|]];
      unfold AsyncResultStreamIterator.next, this, modify, call, await, fetch_request;
      cbn; try reflexivity; eexists; reflexivity.
Qed.

(** C9, amended.  [close()] forwards [closePrepared] to the bindings and
    records nothing in the statement object.  A [run] or [send] after
    [close()] issues [runPrepared] or [sendPrepared] with the same
    identifiers as before.  It fails when the bindings reject that request;
    when they fulfil it, [run] ends as the decoding of the buffer ends, and
    [send] ends as Arrow's opening of the reader ends on a new iterator whose
    header is the buffer.  Nothing in between looks at whether the statement
    was closed. *)
Theorem use_after_close_is_forwarded (e : Engine) (stmt : AsyncPreparedStatement.t)
    (params : list JsValue) (tr : Trace) :
  let db := AsyncPreparedStatement.bindings stmt in
  let conn := AsyncPreparedStatement.connectionId stmt in
  let id := AsyncPreparedStatement.statementId stmt in
  let closed := run e AsyncPreparedStatement.close stmt tr in
  let tr' := snd (fst closed) in
  let p := issued tr' in
  fst (fst closed) = stmt
  /\ requests tr' = requests tr ++ [mkRequest db (Binding.closePrepared conn id)]
  /\ run e (AsyncPreparedStatement.run params) stmt tr' =
       (stmt,
        tr' ++ [EvIssue p (mkRequest db (Binding.runPrepared conn id params));
                EvSettle p (e p)],
        match e p with
        | Fulfilled v =>
            match Table_from (as_buffer v) with
            | inr table => Returned table
            | inl err => Thrown err
            end
        | Rejected x => Thrown x
        end)
  /\ run e (AsyncPreparedStatement.send params) stmt tr' =
       match e p with
       | Fulfilled v =>
           let '(it, tr'', o) :=
             opening e RecordBatchReader_from
               (AsyncResultStreamIterator.constructor db conn (as_buffer v))
               (tr' ++ [EvIssue p (mkRequest db (Binding.sendPrepared conn id params));
                        EvSettle p (Fulfilled v)]) in
           (stmt, tr'', opened_reader it o)
       | Rejected x =>
           (stmt,
            tr' ++ [EvIssue p (mkRequest db (Binding.sendPrepared conn id params));
                    EvSettle p (Rejected x)],
            Thrown x)
       end.
Proof.
  cbv zeta. repeat split.
  - unfold AsyncPreparedStatement.close, this, call, await. cbn [bind run].
    destruct (e (issued tr)); reflexivity.
  - unfold AsyncPreparedStatement.close, this, call, await. cbn [bind run].
    destruct (e (issued tr)); cbn [fst snd]; rewrite !requests_app; simpl;
      rewrite app_nil_r; reflexivity.
  - unfold AsyncPreparedStatement.run, this, call, await. cbn [bind run].
    destruct (e (issued _)) as [v|x]; [|rewrite <- app_assoc; reflexivity].
    destruct (Table_from (as_buffer v)); cbn [run]; rewrite <- app_assoc; reflexivity.
  - unfold AsyncPreparedStatement.send, this, call, await. cbn [bind run].
    destruct (e (issued _)) as [v|x]; [|rewrite <- app_assoc; reflexivity].
    rewrite run_bind, run_consume, <- app_assoc.
    destruct (opening e RecordBatchReader_from _ _) as [[it tr''] [st|x]]; reflexivity.
Qed.
End WithArrow.

(** C8, as the claim states it, fails: a second query is started on the
    connection while the first one is still outstanding.  Neither call is
    refused, both requests are with the bindings at the same time, and the
    second call completes when its request is answered. *)
Lemma overlapping_queries_are_not_detected :
  let c := AsyncDuckDBConnection.constructor (Worker 0) 1 in
  let one := start (AsyncDuckDBConnection.runQuery (arrow := MockArrow.arrow) "SELECT 1") c [] in
  let two := start (AsyncDuckDBConnection.runQuery (arrow := MockArrow.arrow) "SELECT 2") c
               (snd (fst one)) in
  refused (snd one) = false
  /\ refused (snd two) = false
  /\ outstanding (snd (fst two)) = [0; 1]
  /\ requests (snd (fst two)) =
       [mkRequest (Worker 0) (Binding.runQuery 1 "SELECT 1");
        mkRequest (Worker 0) (Binding.runQuery 1 "SELECT 2")]
  /\ map (fun rq => Binding.conn_of (rq_call rq)) (requests (snd (fst two))) = [1%N; 1%N]
  /\ snd (resume (snd two) (Fulfilled (VBuffer (bytes "2"))) c (snd (fst two)))
       = Finished (Returned (bytes "2")).
Proof. cbv zeta. repeat split. Qed.

(** The same holds of an iterator: two [next()] calls that overlap both
    issue a fetch. *)
Example overlapping_next_calls :
  let it := AsyncResultStreamIterator.mk (Worker 0) 1 (bytes "HEADER") false false None in
  let one := start AsyncResultStreamIterator.next it [] in
  let two := start AsyncResultStreamIterator.next (fst (fst one)) (snd (fst one)) in
  outstanding (snd (fst two)) = [0; 1].
Proof. reflexivity. Qed.

(** C9, as the claim states it, fails: with bindings that answer the
    requests, [run] and [send] on a closed statement return a table and a
    reader.  The reader here is opened as the recording reader does it, by
    reading the header, which is long enough for it. *)
Lemma closed_statement_still_runs :
  let e := scripted [Fulfilled VVoid;
                     Fulfilled (VBuffer (bytes "rows"));
                     Fulfilled (VBuffer (bytes "ARROWHDR"))] in
  let stmt := AsyncPreparedStatement.constructor (Worker 0) 1 7 in
  let closed := run e AsyncPreparedStatement.close stmt [] in
  let ran := run e (AsyncPreparedStatement.run (arrow := MockArrow.arrow) [JsNumber 42])
               (fst (fst closed)) (snd (fst closed)) in
  let sent := run e (AsyncPreparedStatement.send (arrow := MockArrow.arrow) [JsNumber 42])
                (fst (fst ran)) (snd (fst ran)) in
  snd closed = Returned tt
  /\ snd ran = Returned (bytes "rows")
  /\ snd sent =
       Returned (mkReader (arrow := MockArrow.arrow)
                   (AsyncResultStreamIterator.set_first false
                      (AsyncResultStreamIterator.constructor (Worker 0) 1 (bytes "ARROWHDR")))
                   (bytes "ARROWHDR"))
  /\ requests (snd (fst sent)) =
       [mkRequest (Worker 0) (Binding.closePrepared 1 7);
        mkRequest (Worker 0) (Binding.runPrepared 1 7 [JsNumber 42]);
        mkRequest (Worker 0) (Binding.sendPrepared 1 7 [JsNumber 42])].
Proof. cbv zeta. repeat split. Qed.

(** C10.  [useUnsafe(callback)] is the callback applied to the bindings
    object and the connection identifier of the connection, whatever the
    callback is: nothing is checked and the connection is not touched.  In
    particular a callback can take the raw identifier and the bindings out
    of the connection, and with them issue any request on that connection
    whatever is outstanding. *)
Theorem useUnsafe_is_application (c : AsyncDuckDBConnection.t) :
  (forall (R : Type) (callback : AsyncDuckDB -> N -> R),
      AsyncDuckDBConnection.useUnsafe c callback =
        callback (AsyncDuckDBConnection._bindings c) (AsyncDuckDBConnection._conn c))
  /\ AsyncDuckDBConnection.useUnsafe c (fun _ conn => conn) = AsyncDuckDBConnection._conn c
  /\ AsyncDuckDBConnection.useUnsafe c (fun db _ => db) = AsyncDuckDBConnection.bindings c
  /\ (forall tr : Trace,
        AsyncDuckDBConnection.useUnsafe c
          (fun db conn => start (call db (Binding.fetchQueryResults conn)) tt tr)
        = (tt,
           tr ++ [EvIssue (issued tr)
                    (mkRequest (AsyncDuckDBConnection._bindings c)
                       (Binding.fetchQueryResults (AsyncDuckDBConnection._conn c)))],
           Finished (Returned (issued tr)))).
Proof. repeat split. Qed.
End Handles.

(** ** More about the result stream iterator *)

Module Streaming.
Import AsyncResultStreamIterator.
Import Stream.

Ltac next_cases e it tr :=
  let Hf := fresh "Hfirst" in
  let Hd := fresh "Hdep" in
  let He := fresh "He" in
  let Hb := fresh "Hb" in
  let Hne := fresh "Hne" in
  destruct (_first it) eqn:Hf;
  [ rewrite (call_next_first e it tr Hf)
  | destruct (_depleted it) eqn:Hd;
    [ rewrite (call_next_depleted e it tr Hf Hd)
    | destruct (e (awaited it tr)) as [?v|?x] eqn:He;
      [ match goal with
        | H : e (awaited it tr) = Fulfilled ?v |- _ =>
            destruct (as_buffer v) as [|?b ?bs] eqn:Hb;
            [ rewrite (call_next_end e it tr Hf Hd H Hb)
            | assert (as_buffer v <> []) as Hne by congruence;
              rewrite (call_next_chunk e it tr Hf Hd H Hne) ]
        end
      | rewrite (call_next_rejected e it tr Hf Hd He) ] ] ].

(** One call: the trace grows, by fetches of this iterator only, and the
    constructor parameters stay. *)
Lemma call_next_frame (e : Engine) (it : t) (tr : Trace) :
  exists (d : Trace) (k : nat),
    snd (fst (call_next e it tr)) = tr ++ d
    /\ requests d = repeat (fetch_request it) k
    /\ db (fst (fst (call_next e it tr))) = db it
    /\ conn (fst (fst (call_next e it tr))) = conn it
    /\ header (fst (fst (call_next e it tr))) = header it.
Proof.
  next_cases e it tr; cbn [fst snd]; unfold upto_await;
    destruct (_inFlight it) as [p|]; rewrite <- ?app_assoc;
    try (eexists _, 0; repeat split; reflexivity);
    try (eexists _, 1; repeat split; reflexivity);
    try (eexists _, 2; repeat split; reflexivity).
Qed.

Lemma nexts_frame (e : Engine) (n : nat) : forall (it : t) (tr : Trace),
  exists (d : Trace) (k : nat),
    snd (fst (nexts e n it tr)) = tr ++ d
    /\ requests d = repeat (fetch_request it) k
    /\ db (fst (fst (nexts e n it tr))) = db it
    /\ conn (fst (fst (nexts e n it tr))) = conn it
    /\ header (fst (fst (nexts e n it tr))) = header it.
Proof.
  induction n as [|n IH]; intros it tr.
  - exists [], 0. simpl. rewrite app_nil_r. auto.
  - rewrite nexts_S.
    destruct (call_next_frame e it tr) as (d1 & k1 & Ht1 & Hr1 & Hd1 & Hc1 & Hh1).
    destruct (call_next e it tr) as [[it1 tr1] o]. cbn [fst snd] in *.
    destruct (IH it1 tr1) as (d2 & k2 & Ht2 & Hr2 & Hd2 & Hc2 & Hh2).
    destruct (nexts e n it1 tr1) as [[it2 tr2] os]. cbn [fst snd] in *.
    exists (d1 ++ d2), (k1 + k2). subst tr1 tr2. rewrite <- app_assoc.
    repeat split; try congruence.
    rewrite requests_app, Hr1, Hr2, repeat_app. unfold fetch_request.
    rewrite Hd1, Hc1. reflexivity.
Qed.

(** The same for a call whose end is not recorded, and for a client that
    makes several such calls. *)
Lemma run_next_frame (e : Engine) (it : t) (tr : Trace) :
  exists (d : Trace) (k : nat),
    snd (fst (run e next it tr)) = tr ++ d
    /\ requests d = repeat (fetch_request it) k
    /\ db (fst (fst (run e next it tr))) = db it
    /\ conn (fst (fst (run e next it tr))) = conn it.
Proof.
  destruct it as [d c h f dp fl]. unfold next, this, modify, call, await, fetch_request.
  destruct f; [exists [], 0; simpl; rewrite app_nil_r; auto|].
  destruct dp; [exists [], 0; simpl; rewrite app_nil_r; auto|].
  destruct fl as [p|]; cbn [bind run _first _depleted _inFlight db conn].
  - destruct (e p) as [v|x]; [|eexists _, 0; cbn [fst snd]; repeat split; reflexivity].
    cbn [bind run set_inFlight set_depleted _first _depleted _inFlight db conn header].
    destruct (as_buffer v) as [|b bs]; simpl.
    + eexists _, 0. repeat split; reflexivity.
    + rewrite <- app_assoc. eexists _, 1. repeat split; reflexivity.
  - destruct (e (issued tr)) as [v|x];
      [|rewrite <- ?app_assoc; eexists _, 1; cbn [fst snd]; repeat split; reflexivity].
    cbn [bind run set_inFlight set_depleted _first _depleted _inFlight db conn header].
    destruct (as_buffer v) as [|b bs]; simpl.
    + rewrite <- !app_assoc. eexists _, 1. repeat split; reflexivity.
    + rewrite <- !app_assoc. eexists _, 2. repeat split; reflexivity.
Qed.

Lemma opening_frame {R : Type} (e : Engine) (client : Consumer R) :
  forall (it : t) (tr : Trace),
  exists (d : Trace) (k : nat),
    snd (fst (opening e client it tr)) = tr ++ d
    /\ requests d = repeat (fetch_request it) k.
Proof.
  induction client as [r|x|k IH]; intros it tr; cbn [opening].
  - exists [], 0. simpl. rewrite app_nil_r. auto.
  - exists [], 0. simpl. rewrite app_nil_r. auto.
  - destruct (run_next_frame e it tr) as (d1 & k1 & Ht1 & Hr1 & Hd1 & Hc1).
    destruct (run e next it tr) as [[it1 tr1] ended]. cbn [fst snd] in *. subst tr1.
    destruct (IH ended it1 (tr ++ d1)) as (d2 & k2 & Ht2 & Hr2).
    exists (d1 ++ d2), (k1 + k2). rewrite Ht2, <- app_assoc. split; [reflexivity|].
    rewrite requests_app, Hr1, Hr2, repeat_app. unfold fetch_request.
    rewrite Hd1, Hc1. reflexivity.
Qed.

(** X1.  Whatever the engine does and however many calls follow, the first
    thing an iterator does is return its header with [done = false]: nothing
    is requested before it, and this holds for an empty header too. *)
Theorem header_comes_first (e : Engine) (d : AsyncDuckDB) (c : N) (h : Uint8Array)
    (tr0 : Trace) (n : nat) :
  exists (it : t) (later : Trace) (os : list (Outcome IteratorResult)),
    nexts e (S n) (constructor d c h) tr0 =
      (it, tr0 ++ EvNext (Returned (chunk_result h)) :: later,
       Returned (chunk_result h) :: os).
Proof.
  rewrite nexts_S, call_next_first by reflexivity.
  destruct (nexts_frame e n (set_first false (constructor d c h))
              (tr0 ++ [EvNext (Returned (chunk_result (header (constructor d c h))))]))
    as (later & k & Ht & _).
  destruct (nexts e n _ _) as [[it tr] os]. cbn [fst snd] in Ht. subst tr.
  exists it, later, os. rewrite <- app_assoc. reflexivity.
Qed.

(** X2.  An iterator only ever asks for [fetchQueryResults] on the bindings
    and the connection it was constructed with, and never changes its
    bindings, its connection identifier or its header. *)
Theorem only_own_fetches (e : Engine) (d : AsyncDuckDB) (c : N) (h : Uint8Array)
    (tr0 : Trace) (n : nat) :
  let it := fst (fst (nexts e n (constructor d c h) tr0)) in
  let tr := snd (fst (nexts e n (constructor d c h) tr0)) in
  (exists k, requests tr =
             requests tr0 ++ repeat (mkRequest d (Binding.fetchQueryResults c)) k)
  /\ db it = d /\ conn it = c /\ header it = h.
Proof.
  cbv zeta.
  destruct (nexts_frame e n (constructor d c h) tr0) as (later & k & Ht & Hr & Hd & Hc & Hh).
  split; [|auto]. exists k. rewrite Ht, requests_app, Hr. reflexivity.
Qed.

(** X3.  For every call but the first one, [done] says exactly whether the
    result carries no bytes; the first call returns the header with
    [done = false] even when the header is empty. *)
Theorem done_iff_empty (e : Engine) (it : t) (tr : Trace) (r : IteratorResult) :
  snd (call_next e it tr) = Returned r ->
  done r = negb (_first it) && is_empty r.
Proof.
  next_cases e it tr; cbn [snd]; intros H; try discriminate;
    injection H as <-; try reflexivity.
  unfold chunk_result, is_empty. cbn [done value]. rewrite Hb. reflexivity.
Qed.

Lemma done_iff_empty_witness :
  let e := scripted [Fulfilled (VBuffer (bytes "A"))] in
  let it := mk (Worker 0) 1 (bytes "HEADER") false false None in
  snd (call_next e it []) = Returned (chunk_result (bytes "A"))
  /\ done (chunk_result (bytes "A")) = negb (_first it) && is_empty (chunk_result (bytes "A")).
Proof.
  cbv zeta. split; [reflexivity|].
  exact (@done_iff_empty (scripted [Fulfilled (VBuffer (bytes "A"))])
           (mk (Worker 0) 1 (bytes "HEADER") false false None) []
           (chunk_result (bytes "A")) eq_refl).
Defined.

(** X4.  When an iterator is depleted, no fetch is left behind: the in-flight
    slot is empty and every fetch that was issued has been awaited. *)
Theorem nothing_pending_after_end (e : Engine) (d : AsyncDuckDB) (c : N) (h : Uint8Array)
    (n : nat) :
  let it := fst (fst (nexts e n (constructor d c h) [])) in
  let tr := snd (fst (nexts e n (constructor d c h) [])) in
  _depleted it = true ->
  _inFlight it = None /\ outstanding tr = [].
Proof.
  cbv zeta. intros Hd.
  pose proof (@between_calls_nexts e n _ _ (between_calls_fresh d c h)) as I.
  destruct (_inFlight (fst (fst (nexts e n (constructor d c h) [])))) as [p|] eqn:Hf.
  - destruct (inv_slot I Hf) as (_ & H & _). congruence.
  - split; [reflexivity | apply (inv_idle I Hf)].
Qed.

Lemma nothing_pending_after_end_witness :
  let e := scripted [Fulfilled (VBuffer (bytes "A")); Fulfilled (VBuffer [])] in
  let fresh := constructor (Worker 0) 1 (bytes "HEADER") in
  _depleted (fst (fst (nexts e 3 fresh []))) = true
  /\ _inFlight (fst (fst (nexts e 3 fresh []))) = None
  /\ outstanding (snd (fst (nexts e 3 fresh []))) = [].
Proof.
  cbv zeta. split; [reflexivity|].
  exact (@nothing_pending_after_end
           (scripted [Fulfilled (VBuffer (bytes "A")); Fulfilled (VBuffer [])])
           (Worker 0) 1%N (bytes "HEADER") 3 eq_refl).
Defined.

(** One call issues at most what the iterator owed, plus one. *)
Lemma call_next_budget (e : Engine) (it : t) (tr : Trace) :
  issued (snd (fst (call_next e it tr))) + owed (fst (fst (call_next e it tr)))
  <= issued tr + owed it + 1.
Proof.
  next_cases e it tr; cbn [fst snd]; unfold owed, upto_await;
    cbn [_first _depleted _inFlight set_first set_depleted set_inFlight];
    rewrite ?Hfirst, ?Hdep;
    destruct (_inFlight it) as [p|];
    rewrite ?issued_app; unfold issued; simpl; try lia;
    destruct (_depleted it); lia.
Qed.

(** X5.  Prefetching runs one fetch ahead and no more: after [n] calls an
    iterator has issued at most [n] fetches, whatever the engine answers. *)
Theorem fetches_bounded_by_calls (e : Engine) (d : AsyncDuckDB) (c : N) (h : Uint8Array)
    (tr0 : Trace) (n : nat) :
  issued (snd (fst (nexts e n (constructor d c h) tr0))) <= issued tr0 + n.
Proof.
  assert (forall m it tr,
            issued (snd (fst (nexts e m it tr))) + owed (fst (fst (nexts e m it tr)))
            <= issued tr + owed it + m) as H.
  { induction m as [|m IH]; intros it tr.
    - simpl. lia.
    - rewrite nexts_S. pose proof (call_next_budget e it tr) as H1.
      destruct (call_next e it tr) as [[it1 tr1] o]. cbn [fst snd] in H1.
      specialize (IH it1 tr1).
      destruct (nexts e m it1 tr1) as [[it2 tr2] os]. cbn [fst snd] in *. lia. }
  specialize (H n (constructor d c h) tr0). unfold owed at 2 in H. simpl in H. lia.
Qed.

Lemma delivers_tail (e : Engine) (base : Promise) (b : Uint8Array) (rest : list Uint8Array) :
  delivers e base (b :: rest) ->
  e base = Fulfilled (VBuffer b) /\ delivers e (S base) rest.
Proof.
  intros H. split.
  - rewrite <- (Nat.add_0_r base). apply H. reflexivity.
  - intros i x Hx. replace (S base + i) with (base + S i) by lia. apply H. exact Hx.
Qed.

(** A streaming iterator whose promises are in step with the trace drains
    the chunks the engine delivers and then stops. *)
Lemma drain (e : Engine) (chunks : list Uint8Array) : forall (it : t) (tr : Trace) (v : Value),
  _first it = false -> _depleted it = false ->
  issued (upto_await it tr) = S (awaited it tr) ->
  Forall (fun b => b <> []) chunks ->
  delivers e (awaited it tr) chunks ->
  e (awaited it tr + length chunks) = Fulfilled v -> as_buffer v = [] ->
  exists (it' : t) (tr' : Trace),
    nexts e (S (length chunks)) it tr =
      (it', tr', map (fun b => Returned (chunk_result b)) chunks ++ [Returned end_result])
    /\ _depleted it' = true /\ _inFlight it' = None
    /\ issued tr' = S (awaited it tr + length chunks).
Proof.
  induction chunks as [|b rest IH]; intros it tr v Hf Hd Hstep Hne Hdel Hend Hv.
  - simpl in Hend. rewrite Nat.add_0_r in Hend.
    rewrite nexts_S, (call_next_end e it tr Hf Hd Hend Hv). cbn [nexts].
    eexists _, _. split; [reflexivity|]. repeat split.
    rewrite !issued_app, Hstep. unfold issued. simpl. lia.
  - destruct (delivers_tail Hdel) as [Hb Hrest].
    inversion Hne as [|? ? Hb0 Hne']; subst.
    cbn [length] in *.
    rewrite nexts_S, (call_next_chunk e it tr Hf Hd Hb Hb0).
    set (it1 := set_inFlight (Some (issued (upto_await it tr))) it).
    set (tr1 := upto_await it tr ++ _).
    assert (awaited it1 tr1 = S (awaited it tr)) as Ha by (unfold awaited; simpl; exact Hstep).
    assert (issued (upto_await it1 tr1) = S (awaited it1 tr1)) as Hstep1.
    { rewrite Ha. unfold upto_await, it1, tr1. simpl.
      rewrite !issued_app, Hstep. unfold issued. simpl. lia. }
    destruct (IH it1 tr1 v) as (it' & tr' & Hn & Hd' & Hs' & Hi'); try assumption;
      try reflexivity.
    + rewrite Ha. exact Hrest.
    + rewrite Ha. replace (S (awaited it tr) + length rest)
        with (awaited it tr + S (length rest)) by lia. exact Hend.
    + rewrite Hn. exists it', tr'. split; [reflexivity|]. repeat split; try assumption.
      rewrite Hi', Ha. simpl. lia.
Qed.

(** X6.  When the engine answers the fetches with non-empty chunks and then
    with an empty one, the caller receives the header, then those chunks in
    the order the engine produced them, none missing and none twice, then
    the end of the stream; one fetch was issued per chunk and one for the
    end. *)
Theorem chunks_in_engine_order (e : Engine) (d : AsyncDuckDB) (c : N) (h : Uint8Array)
    (tr0 : Trace) (chunks : list Uint8Array) (v : Value) :
  Forall (fun b => b <> []) chunks ->
  delivers e (issued tr0) chunks ->
  e (issued tr0 + length chunks) = Fulfilled v -> as_buffer v = [] ->
  exists (it : t) (tr : Trace),
    nexts e (S (S (length chunks))) (constructor d c h) tr0 =
      (it, tr,
       Returned (chunk_result h)
         :: map (fun b => Returned (chunk_result b)) chunks ++ [Returned end_result])
    /\ _depleted it = true /\ _inFlight it = None
    /\ issued tr = issued tr0 + length chunks + 1.
Proof.
  intros Hne Hdel Hend Hv.
  rewrite nexts_S, call_next_first by reflexivity.
  set (it1 := set_first false (constructor d c h)).
  set (tr1 := tr0 ++ _).
  assert (awaited it1 tr1 = issued tr0) as Ha.
  { unfold awaited, it1, tr1. simpl. rewrite issued_app. unfold issued. simpl. lia. }
  destruct (@drain e chunks it1 tr1 v) as (it & tr & Hn & Hd & Hs & Hi);
    try assumption; try reflexivity.
  - unfold upto_await. simpl. rewrite issued_snoc_issue. unfold awaited. reflexivity.
  - rewrite Ha. exact Hdel.
  - rewrite Ha. exact Hend.
  - rewrite Hn. exists it, tr. split; [reflexivity|]. repeat split; try assumption.
    rewrite Hi, Ha. lia.
Qed.

Lemma chunks_in_engine_order_witness :
  let chunks := [bytes "A"; bytes "B"; bytes "C"] in
  let e := scripted (map (fun b => Fulfilled (VBuffer b)) chunks) in
  snd (nexts e 5 (constructor (Worker 0) 1 (bytes "HEADER")) []) =
    Returned (chunk_result (bytes "HEADER"))
      :: map (fun b => Returned (chunk_result b)) chunks ++ [Returned end_result].
Proof.
  cbv zeta.
  assert (delivers (scripted (map (fun b => Fulfilled (VBuffer b))
                                [bytes "A"; bytes "B"; bytes "C"]))
            (issued []) [bytes "A"; bytes "B"; bytes "C"]) as Hdel.
  { intros i b Hb. destruct i as [|[|[|i]]]; simpl in Hb; try (injection Hb as <-; reflexivity).
    destruct i; discriminate. }
  destruct (@chunks_in_engine_order
              (scripted (map (fun b => Fulfilled (VBuffer b)) [bytes "A"; bytes "B"; bytes "C"]))
              (Worker 0) 1%N (bytes "HEADER") [] [bytes "A"; bytes "B"; bytes "C"]
              (VBuffer [])
              ltac:(repeat constructor; discriminate) Hdel eq_refl eq_refl)
    as (it & tr & Hn & _).
  exact (f_equal snd Hn).
Defined.

(** X7.  As long as the fetch issued inside [next()] is rejected, every call
    fails with the error of its own fetch, issues a fresh fetch the next
    time, and leaves the iterator as it was: there is no limit on the
    retries and no state that remembers the failures. *)
Theorem rejected_fetch_is_reissued (e : Engine) (errors : list Error) :
  forall (it : t) (tr : Trace),
  _first it = false -> _depleted it = false -> _inFlight it = None ->
  rejects e (issued tr) errors ->
  nexts e (length errors) it tr =
    (it, tr ++ retries (fetch_request it) (issued tr) errors, map Thrown errors).
Proof.
  induction errors as [|x rest IH]; intros it tr Hf Hd Hs Hrej.
  - simpl. rewrite app_nil_r. reflexivity.
  - assert (e (awaited it tr) = Rejected x) as Hx.
    { unfold awaited. rewrite Hs. rewrite <- (Nat.add_0_r (issued tr)). apply Hrej. reflexivity. }
    cbn [length]. rewrite nexts_S, (call_next_rejected e it tr Hf Hd Hx).
    unfold upto_await, awaited. rewrite Hs.
    set (tr1 := (tr ++ _) ++ _).
    assert (issued tr1 = S (issued tr)) as Hi.
    { unfold tr1. rewrite !issued_app. unfold issued. simpl. lia. }
    rewrite (IH it tr1 Hf Hd Hs).
    + rewrite Hi. unfold tr1. cbn [retries map]. rewrite <- !app_assoc. reflexivity.
    + intros i y Hy. rewrite Hi.
      replace (S (issued tr) + i) with (issued tr + S i) by lia.
      apply Hrej. exact Hy.
Qed.

Lemma rejected_fetch_is_reissued_witness :
  let e := scripted [Rejected "busy"; Rejected "busy again"] in
  let it := mk (Worker 0) 1 (bytes "HEADER") false false None in
  nexts e 2 it [] =
    (it, retries (fetch_request it) 0 ["busy"; "busy again"],
     [Thrown "busy"; Thrown "busy again"]).
Proof.
  cbv zeta.
  assert (rejects (scripted [Rejected "busy"; Rejected "busy again"]) (issued [])
            ["busy"; "busy again"]) as Hrej.
  { intros i x Hx. destruct i as [|[|i]]; simpl in Hx; try (injection Hx as <-; reflexivity).
    destruct i; discriminate. }
  exact (@rejected_fetch_is_reissued (scripted [Rejected "busy"; Rejected "busy again"])
           ["busy"; "busy again"] (mk (Worker 0) 1 (bytes "HEADER") false false None) []
           eq_refl eq_refl eq_refl Hrej).
Defined.

Lemma settles_app (t1 t2 : Trace) : settles (t1 ++ t2) = settles t1 ++ settles t2.
Proof.
  induction t1 as [|ev t1 IH]; simpl; [reflexivity|].
  destruct ev; simpl; rewrite IH; reflexivity.
Qed.

(** Awaited calls only await the promise in the slot and promises they issue
    themselves. *)
Lemma call_next_settles (e : Engine) (it : t) (tr : Trace) (lower : nat) :
  (forall q, _inFlight it = Some q -> lower <= q) -> lower <= issued tr ->
  exists d : Trace,
    snd (fst (call_next e it tr)) = tr ++ d
    /\ Forall (le lower) (settles d)
    /\ (forall q, _inFlight (fst (fst (call_next e it tr))) = Some q -> lower <= q)
    /\ lower <= issued (tr ++ d).
Proof.
  intros Hslot Hiss.
  assert (lower <= awaited it tr) as Ha.
  { unfold awaited. destruct (_inFlight it) as [q|]; [apply Hslot; reflexivity | exact Hiss]. }
  assert (lower <= issued (upto_await it tr)) as Hu.
  { unfold upto_await. destruct (_inFlight it); [exact Hiss|].
    rewrite issued_snoc_issue. lia. }
  next_cases e it tr; cbn [fst snd].
  - exists [EvNext (Returned (chunk_result (header it)))]. repeat split.
    + constructor.
    + intros q Hq. apply Hslot. exact Hq.
    + rewrite issued_app. lia.
  - exists [EvNext (Returned done_result)]. repeat split.
    + constructor.
    + exact Hslot.
    + rewrite issued_app. lia.
  - unfold upto_await in *. destruct (_inFlight it) as [q|]; rewrite <- ?app_assoc;
      eexists; (split; [reflexivity|]); cbn [app settles]; repeat split;
      try (repeat constructor; exact Ha); try discriminate;
      rewrite issued_app; lia.
  - unfold upto_await in *. destruct (_inFlight it) as [q|]; rewrite <- ?app_assoc;
      eexists; (split; [reflexivity|]); cbn [app settles]; repeat split;
      try (repeat constructor; exact Ha);
      try (intros q' Hq'; injection Hq' as <-; exact Hu);
      rewrite issued_app; lia.
  - unfold upto_await in *. destruct (_inFlight it) as [q|]; rewrite <- ?app_assoc;
      eexists; (split; [reflexivity|]); cbn [app settles]; repeat split;
      try (repeat constructor; exact Ha); try exact Hslot;
      rewrite issued_app; lia.
Qed.

Lemma nexts_settles (e : Engine) (lower : nat) (n : nat) : forall (it : t) (tr : Trace),
  (forall q, _inFlight it = Some q -> lower <= q) -> lower <= issued tr ->
  exists d : Trace,
    snd (fst (nexts e n it tr)) = tr ++ d /\ Forall (le lower) (settles d).
Proof.
  induction n as [|n IH]; intros it tr Hslot Hiss.
  - exists []. simpl. rewrite app_nil_r. split; constructor.
  - rewrite nexts_S.
    destruct (call_next_settles e it tr Hslot Hiss) as (d1 & Ht1 & Hs1 & Hslot1 & Hiss1).
    destruct (call_next e it tr) as [[it1 tr1] o]. cbn [fst snd] in *. subst tr1.
    destruct (IH it1 (tr ++ d1) Hslot1 Hiss1) as (d2 & Ht2 & Hs2).
    destruct (nexts e n it1 (tr ++ d1)) as [[it2 tr2] os]. cbn [fst snd] in *. subst tr2.
    exists (d1 ++ d2). rewrite <- app_assoc. split; [reflexivity|].
    rewrite settles_app. apply Forall_app. auto.
Qed.

(** X8.  Two [next()] calls that overlap on a streaming iterator each issue
    a fetch of their own, and when both have received data each stores a
    further fetch in the in-flight slot.  The second store overwrites the
    first: whatever the engine does, no later call awaits the fetch stored by
    the first call, so its chunk is skipped. *)
Theorem overlapping_calls_skip_a_chunk (d : AsyncDuckDB) (c : N) (h a b : Uint8Array)
    (tr : Trace) :
  a <> [] -> b <> [] ->
  let it := mk d c h false false None in
  let fetch := mkRequest d (Binding.fetchQueryResults c) in
  let one := start next it tr in
  let two := start next (fst (fst one)) (snd (fst one)) in
  let one' := resume (snd one) (Fulfilled (VBuffer a)) (fst (fst two)) (snd (fst two)) in
  let two' := resume (snd two) (Fulfilled (VBuffer b)) (fst (fst one')) (snd (fst one')) in
  snd one' = Finished (Returned (chunk_result a))
  /\ snd two' = Finished (Returned (chunk_result b))
  /\ _inFlight (fst (fst one')) = Some (issued tr + 2)
  /\ _inFlight (fst (fst two')) = Some (issued tr + 3)
  /\ requests (snd (fst two')) = requests tr ++ [fetch; fetch; fetch; fetch]
  /\ (forall (e : Engine) (n : nat),
        exists later : Trace,
          snd (fst (nexts e n (fst (fst two')) (snd (fst two')))) = snd (fst two') ++ later
          /\ ~ In (issued tr + 2) (settles later)).
Proof.
  intros Ha Hb. cbv zeta.
  destruct a as [|a0 a']; [contradiction|]. destruct b as [|b0 b']; [contradiction|].
  unfold next, this, modify, call, await, awaited. cbn.
  repeat split.
  - f_equal. unfold issued. rewrite !filter_app, !length_app. simpl. lia.
  - f_equal. unfold issued. rewrite !filter_app, !length_app. simpl. lia.
  - rewrite !requests_app. simpl. rewrite <- !app_assoc. reflexivity.
  - intros e n.
    match goal with
    | |- exists later, snd (fst (nexts e n ?it ?t)) = _ /\ _ =>
        destruct (@nexts_settles e (issued tr + 3) n it t) as (later & Ht & Hs)
    end.
    + cbn [_inFlight]. intros q Hq. injection Hq as <-.
      unfold issued. rewrite !filter_app, !length_app. simpl. lia.
    + unfold issued. rewrite !filter_app, !length_app. simpl. lia.
    + exists later. split; [exact Ht|]. intros Hin.
      rewrite Forall_forall in Hs. specialize (Hs _ Hin). lia.
Qed.

Lemma overlapping_calls_skip_a_chunk_witness :
  let it := mk (Worker 0) 1 (bytes "HEADER") false false None in
  let one := start next it [] in
  let two := start next (fst (fst one)) (snd (fst one)) in
  let one' := resume (snd one) (Fulfilled (VBuffer (bytes "A"))) (fst (fst two)) (snd (fst two)) in
  let two' := resume (snd two) (Fulfilled (VBuffer (bytes "B"))) (fst (fst one')) (snd (fst one')) in
  _inFlight (fst (fst one')) = Some 2 /\ _inFlight (fst (fst two')) = Some 3.
Proof.
  cbv zeta.
  pose proof (@overlapping_calls_skip_a_chunk (Worker 0) 1%N (bytes "HEADER") (bytes "A")
                (bytes "B") [] ltac:(discriminate) ltac:(discriminate)) as H.
  cbv zeta in H. destruct H as (_ & _ & H1 & H2 & _). split; [exact H1 | exact H2].
Defined.
End Streaming.

(** ** More about the insertion pipeline *)

Module Pipeline.
Import AsyncDuckDBConnection.
Import Insertion.

Section WithArrow.
Context {arrow : Arrow}.
Variables (e : Engine) (c : AsyncDuckDBConnection.t) (options : ArrowInsertOptions).

Lemma send_all_prefix (messages : list Uint8Array) : forall (p : Promise),
  exists k : nat,
    k <= length messages
    /\ (messages <> [] -> 1 <= k)
    /\ fst (send_all e c options p messages) = exchanges e c options p (firstn k messages)
    /\ (snd (send_all e c options p messages) = Returned tt -> k = length messages)
    /\ (forall x, snd (send_all e c options p messages) = Thrown x ->
         e (p + (k - 1)) = Rejected x).
Proof.
  induction messages as [|m ms IH]; intros p.
  - exists 0. simpl. repeat split; auto; try congruence; try discriminate.
  - cbn [send_all]. destruct (e p) as [v|x] eqn:He.
    + destruct (IH (S p)) as (k & Hk & Hpos & Hfst & Hret & Hthr).
      destruct (send_all e c options (S p) ms) as [t o] eqn:Hs. cbn [fst snd] in *.
      exists (S k). cbn [length firstn exchanges]. rewrite He, Hfst.
      split; [lia|]. split; [lia|]. split; [reflexivity|]. split.
      * intros Ho. rewrite (Hret Ho). reflexivity.
      * intros x Ho. specialize (Hthr x Ho).
        destruct k as [|k].
        -- destruct ms as [|m' ms']; [simpl in Hs; congruence|].
           specialize (Hpos ltac:(discriminate)). lia.
        -- replace (p + (S (S k) - 1)) with (S p + (S k - 1)) by lia. exact Hthr.
    + exists 1. cbn [length firstn exchanges fst snd]. rewrite He.
      repeat split; auto; try lia; try discriminate.
      intros y Hy. injection Hy as <-. rewrite Nat.add_0_r. exact He.
Qed.

(** X9.  Whatever the engine answers, the ingestion calls of an insertion
    are the first [k] messages of the sequence, in order, for some [k] that
    is at least one and at most the number of messages; the insertion
    succeeds only when all of them were sent, and fails with the error of the
    last call made.  Nothing is ever sent out of order, twice, or after a
    failure. *)
Theorem calls_are_a_prefix (schema : Schema) (batches : list RecordBatch) (tr : Trace) :
  exists k : nat,
    1 <= k <= length (payloads schema batches)
    /\ length (payloads schema batches) = Nat.max 1 (length batches)
    /\ snd (fst (run e (insertArrowBatches schema batches options) c tr)) =
         tr ++ exchanges e c options (issued tr) (firstn k (payloads schema batches))
    /\ fst (fst (run e (insertArrowBatches schema batches options) c tr)) = c
    /\ (snd (run e (insertArrowBatches schema batches options) c tr) = Returned tt ->
         k = length (payloads schema batches))
    /\ (forall x, snd (run e (insertArrowBatches schema batches options) c tr) = Thrown x ->
         e (issued tr + (k - 1)) = Rejected x).
Proof.
  rewrite insertArrowBatches_run. cbn [fst snd].
  destruct (send_all_prefix (payloads schema batches) (issued tr))
    as (k & Hk & Hpos & Hfst & Hret & Hthr).
  pose proof (payloads_length schema batches) as Hlen.
  exists k. rewrite Hfst. repeat split; auto.
  apply Hpos. intros H. rewrite H in Hlen.
  pose proof (Nat.le_max_l 1 (length batches)) as Hmax. rewrite <- Hlen in Hmax.
  simpl in Hmax. lia.
Qed.

Lemma seal_concat (later : list Uint8Array) : forall (current fin : Uint8Array),
  concat (seal current later fin) = current ++ concat later ++ fin.
Proof.
  induction later as [|b l IH]; intros current fin; simpl.
  - rewrite app_nil_r. reflexivity.
  - rewrite IH, <- app_assoc. reflexivity.
Qed.

(** X10.  When the engine accepts every call, the payloads of the ingestion
    calls, joined in call order, are exactly the stream the writer produced:
    the schema message, the block of every batch in batch order, then the
    trailing framing.  Flushing in pieces loses, repeats and reorders
    nothing. *)
Theorem payloads_join_to_the_stream (schema : Schema) (batches : list RecordBatch)
    (tr : Trace) :
  (forall k, k < length (payloads schema batches) ->
     exists v, e (issued tr + k) = Fulfilled v) ->
  exists messages : list Uint8Array,
    run e (insertArrowBatches schema batches options) c tr =
      (c, tr ++ exchanges e c options (issued tr) messages, Returned tt)
    /\ requests (exchanges e c options (issued tr) messages) = map (ingest c options) messages
    /\ concat messages =
         header_block schema ++ concat (batch_blocks schema batches) ++ trailer schema batches.
Proof.
  intros H. exists (payloads schema batches). split; [|split].
  - rewrite insertArrowBatches_run, send_all_fulfilled by exact H. reflexivity.
  - apply requests_exchanges.
  - unfold payloads. destruct (batch_blocks schema batches) as [|blk later].
    + simpl. rewrite app_nil_r. reflexivity.
    + rewrite seal_concat. simpl. rewrite <- !app_assoc. reflexivity.
Qed.

(** X11.  Inserting a table inserts its schema and its chunks through the
    pipeline.  A schema without fields adds one warning in front and changes
    nothing else: the requests and the way the insertion ends are the same.
    Inserting vectors is inserting the table made of them. *)
Theorem table_insertion (table : Table) (tr : Trace) :
  let schema := Table_schema table in
  let warning :=
    if (Schema_fields_length schema =? 0)%nat then [EvWarn empty_schema_warning] else [] in
  let sent := send_all e c options (issued tr) (payloads schema (Table_chunks table)) in
  run e (insertArrowBatches schema (Table_chunks table) options) c tr =
    (c, tr ++ fst sent, snd sent)
  /\ run e (insertArrowTable table options) c tr = (c, tr ++ warning ++ fst sent, snd sent)
  /\ (forall children, insertArrowVectors children options
                       = insertArrowTable (Table_new children) options).
Proof.
  cbv zeta. split; [apply insertArrowBatches_run|]. split; [|reflexivity].
  unfold insertArrowTable.
  destruct (Schema_fields_length (Table_schema table) =? 0)%nat; cbn [bind run].
  - rewrite insertArrowBatches_run.
    rewrite Handles.issued_snoc_quiet by reflexivity. rewrite <- app_assoc. reflexivity.
  - apply insertArrowBatches_run.
Qed.
End WithArrow.

Lemma payloads_join_to_the_stream_witness :
  let e : Engine := fun _ => Fulfilled VVoid in
  let c := AsyncDuckDBConnection.constructor (Worker 0) 1 in
  exists messages : list Uint8Array,
    run e (insertArrowBatches (arrow := MockArrow.arrow) "s" ["B1"; "B2"] "t") c [] =
      (c, [] ++ exchanges e c "t" (issued []) messages, Returned tt)
    /\ concat messages = bytes "<schema:s><batch:B1><batch:B2><eos:>".
Proof.
  cbv zeta.
  destruct (@payloads_join_to_the_stream MockArrow.arrow (fun _ => Fulfilled VVoid)
              (AsyncDuckDBConnection.constructor (Worker 0) 1) "t" "s" ["B1"; "B2"] []
              (fun k _ => ex_intro _ VVoid eq_refl)) as (messages & Hrun & _ & Hcat).
  exists messages. split; [exact Hrun | exact Hcat].
Defined.
End Pipeline.

(** ** More about connections and prepared statements *)

Module Sessions.
Import Handles.

Ltac run_method :=
  unfold this, call, await; cbn [bind run];
  rewrite ?issued_snoc_quiet by reflexivity.

Section WithArrow.
Context {arrow : Arrow}.
Variable e : Engine.

(** X12.  [runQuery] logs the query text, then issues one [runQuery] request
    and awaits it.  It fails with the rejection of the bindings, or with the
    error of the decoder when the buffer is not a table, and returns the
    decoded table otherwise; in every case the log record is written before
    the request leaves and nothing else is requested. *)
Theorem runQuery_outcome (c : AsyncDuckDBConnection.t) (text : string) (tr : Trace) :
  let p := issued tr in
  run e (AsyncDuckDBConnection.runQuery text) c tr =
    (c,
     tr ++ [EvLog (AsyncDuckDBConnection.query_log text);
            EvIssue p (mkRequest (AsyncDuckDBConnection._bindings c)
                         (Binding.runQuery (AsyncDuckDBConnection._conn c) text));
            EvSettle p (e p)],
     match e p with
     | Fulfilled v =>
         match Table_from (as_buffer v) with
         | inr table => Returned table
         | inl err => Thrown err
         end
     | Rejected x => Thrown x
     end).
Proof.
  cbv zeta. unfold AsyncDuckDBConnection.runQuery. run_method.
  destruct (e (issued tr)) as [v|x]; [|rewrite <- !app_assoc; reflexivity].
  destruct (Table_from (as_buffer v)); cbn [run]; rewrite <- !app_assoc; reflexivity.
Qed.

(** X13.  [sendQuery] logs and issues one [sendQuery] request.  When it is
    rejected the method fails with that error and no iterator is made.  When
    it is fulfilled, Arrow opens its reader on a new iterator on the same
    bindings and connection whose header is the buffer the engine returned,
    and the method ends as that opening ends: it fails when the opening fails
    and otherwise returns the reader over the iterator as the opening left
    it.  The first [next()] the opening makes returns exactly the header and
    requests nothing, and whatever the opening requests is a fetch on this
    connection.  [send] on a prepared statement does the same with
    [sendPrepared]. *)
Theorem stream_starts_with_the_header_sent (c : AsyncDuckDBConnection.t) (text : string)
    (id : N) (params : list JsValue) (tr : Trace) :
  let db := AsyncDuckDBConnection._bindings c in
  let conn := AsyncDuckDBConnection._conn c in
  let stmt := AsyncPreparedStatement.constructor db conn id in
  let p := issued tr in
  let queried := tr ++ [EvLog (AsyncDuckDBConnection.query_log text);
                        EvIssue p (mkRequest db (Binding.sendQuery conn text));
                        EvSettle p (e p)] in
  let sent := tr ++ [EvIssue p (mkRequest db (Binding.sendPrepared conn id params));
                     EvSettle p (e p)] in
  match e p with
  | Fulfilled v =>
      let iter := AsyncResultStreamIterator.constructor db conn (as_buffer v) in
      run e (AsyncDuckDBConnection.sendQuery text) c tr =
        (let '(it, tr', o) := opening e RecordBatchReader_from iter queried in
         (c, tr', opened_reader it o))
      /\ run e (AsyncPreparedStatement.send params) stmt tr =
           (let '(it, tr', o) := opening e RecordBatchReader_from iter sent in
            (stmt, tr', opened_reader it o))
      /\ (forall (R : Type) (k : Outcome IteratorResult -> Consumer R) (tr' : Trace),
            opening e (Pull k) iter tr' =
              opening e (k (Returned (chunk_result (as_buffer v))))
                (AsyncResultStreamIterator.set_first false iter) tr')
      /\ (forall tr' : Trace,
            exists (later : Trace) (n : nat),
              snd (fst (opening e RecordBatchReader_from iter tr')) = tr' ++ later
              /\ requests later = repeat (mkRequest db (Binding.fetchQueryResults conn)) n)
  | Rejected x =>
      run e (AsyncDuckDBConnection.sendQuery text) c tr = (c, queried, Thrown x)
      /\ run e (AsyncPreparedStatement.send params) stmt tr = (stmt, sent, Thrown x)
  end.
Proof.
  cbv zeta. destruct (e (issued tr)) as [v|x] eqn:He.
  - split; [|split; [|split]].
    + unfold AsyncDuckDBConnection.sendQuery. run_method. rewrite He.
      rewrite run_bind, run_consume, <- !app_assoc.
      destruct (opening e RecordBatchReader_from _ _) as [[it tr'] [st|x]]; reflexivity.
    + unfold AsyncPreparedStatement.send. run_method. rewrite He.
      rewrite run_bind, run_consume, <- !app_assoc.
      destruct (opening e RecordBatchReader_from _ _) as [[it tr'] [st|x]]; reflexivity.
    + intros R k tr'. reflexivity.
    + intros tr'. apply (Streaming.opening_frame e RecordBatchReader_from).
  - split.
    + unfold AsyncDuckDBConnection.sendQuery. run_method. rewrite He.
      rewrite <- !app_assoc. reflexivity.
    + unfold AsyncPreparedStatement.send. run_method. rewrite He.
      rewrite <- !app_assoc. reflexivity.
Qed.

(** X14.  [prepareStatement] issues one [createPrepared] request.  The
    statement it returns is bound to the bindings and the connection of this
    connection and to the identifier the engine answered, and every later
    [run], [send] and [close] on it carries exactly that connection and that
    identifier; the only other requests a [send] can make are the fetches of
    the reader it opens, on the same connection.  When the request is
    rejected no statement is made. *)
Theorem prepared_statement_identifiers (c : AsyncDuckDBConnection.t) (text : string)
    (tr : Trace) :
  let db := AsyncDuckDBConnection._bindings c in
  let conn := AsyncDuckDBConnection._conn c in
  let p := issued tr in
  let created := tr ++ [EvIssue p (mkRequest db (Binding.createPrepared conn text));
                        EvSettle p (e p)] in
  match e p with
  | Fulfilled v =>
      let stmt := AsyncPreparedStatement.constructor db conn (as_number v) in
      run e (AsyncDuckDBConnection.prepareStatement text) c tr = (c, created, Returned stmt)
      /\ (forall params tr',
            requests (snd (fst (run e (AsyncPreparedStatement.run params) stmt tr'))) =
              requests tr' ++ [mkRequest db (Binding.runPrepared conn (as_number v) params)])
      /\ (forall params tr',
            exists n : nat,
              requests (snd (fst (run e (AsyncPreparedStatement.send params) stmt tr'))) =
                requests tr'
                  ++ mkRequest db (Binding.sendPrepared conn (as_number v) params)
                  :: repeat (mkRequest db (Binding.fetchQueryResults conn)) n)
      /\ (forall tr',
            requests (snd (fst (run e AsyncPreparedStatement.close stmt tr'))) =
              requests tr' ++ [mkRequest db (Binding.closePrepared conn (as_number v))])
  | Rejected x =>
      run e (AsyncDuckDBConnection.prepareStatement text) c tr = (c, created, Thrown x)
  end.
Proof.
  cbv zeta. destruct (e (issued tr)) as [v|x] eqn:He.
  - split; [|split; [|split]].
    + unfold AsyncDuckDBConnection.prepareStatement. run_method. rewrite He. cbn [run].
      rewrite <- !app_assoc. reflexivity.
    + intros params tr'. unfold AsyncPreparedStatement.run. run_method.
      destruct (e (issued tr')) as [v'|x']; [destruct (Table_from (as_buffer v'))|];
        cbn [run fst snd]; rewrite !requests_app; simpl; rewrite app_nil_r; reflexivity.
    + intros params tr'. unfold AsyncPreparedStatement.send. run_method.
      destruct (e (issued tr')) as [v'|x'].
      * rewrite run_bind, run_consume.
        match goal with
        | |- context [opening e RecordBatchReader_from ?it ?t] =>
            destruct (Streaming.opening_frame e RecordBatchReader_from it t)
              as (later & n & Ht & Hr);
            destruct (opening e RecordBatchReader_from it t) as [[it' t'] [st|x']]
        end; cbn [fst snd run] in *; subst t'; exists n;
          rewrite !requests_app, Hr; simpl; rewrite <- ?app_assoc; reflexivity.
      * exists 0. cbn [fst snd]. rewrite !requests_app. simpl. rewrite app_nil_r. reflexivity.
    + intros tr'. unfold AsyncPreparedStatement.close. run_method.
      destruct (e (issued tr')) as [v'|x'];
        cbn [run fst snd]; rewrite !requests_app; simpl; rewrite app_nil_r; reflexivity.
  - unfold AsyncDuckDBConnection.prepareStatement. run_method. rewrite He.
    rewrite <- !app_assoc. reflexivity.
Qed.

(** X16.  Closing a connection only issues [disconnect]: nothing marks the
    connection, its statements or its iterators as closed.  After [close()],
    whether it succeeded or not, a query on the connection, a [run] on a
    statement made from it and a [next()] on a streaming iterator made from
    it still send their request to the bindings. *)
Theorem nothing_is_invalidated_by_close (c : AsyncDuckDBConnection.t) (tr : Trace) :
  let db := AsyncDuckDBConnection._bindings c in
  let conn := AsyncDuckDBConnection._conn c in
  let closed := run e AsyncDuckDBConnection.close c tr in
  let tr' := snd (fst closed) in
  fst (fst closed) = c
  /\ requests tr' = requests tr ++ [mkRequest db (Binding.disconnect conn)]
  /\ (forall text,
        never_refuses (AsyncDuckDBConnection.runQuery text)
          (fst (fst closed)) (mkRequest db (Binding.runQuery conn text)))
  /\ (forall id params,
        never_refuses (AsyncPreparedStatement.run params)
          (AsyncPreparedStatement.constructor db conn id)
          (mkRequest db (Binding.runPrepared conn id params)))
  /\ (forall header,
        exists later,
          snd (fst (AsyncResultStreamIterator.call_next e
                      (AsyncResultStreamIterator.mk db conn header false false None) tr')) =
            tr' ++ EvIssue (issued tr') (mkRequest db (Binding.fetchQueryResults conn)) :: later).
Proof.
  cbv zeta.
  assert (run e AsyncDuckDBConnection.close c tr =
          (c, tr ++ [EvIssue (issued tr)
                       (mkRequest (AsyncDuckDBConnection._bindings c)
                          (Binding.disconnect (AsyncDuckDBConnection._conn c)));
                     EvSettle (issued tr) (e (issued tr))],
           settle_unit (e (issued tr)))) as Hclose.
  { unfold AsyncDuckDBConnection.close. run_method.
    destruct (e (issued tr)); cbn [run settle_unit]; rewrite <- !app_assoc; reflexivity. }
  rewrite Hclose. cbn [fst snd]. split; [reflexivity|]. split; [|split; [|split]].
  - rewrite requests_app. simpl. reflexivity.
  - intros text. clear Hclose. clear tr. unfold AsyncDuckDBConnection.runQuery.
    starts [EvLog (AsyncDuckDBConnection.query_log text)].
  - intros id params. clear Hclose. clear tr. unfold AsyncPreparedStatement.run.
    starts (@nil Event).
  - intros header.
    set (it := AsyncResultStreamIterator.mk _ _ header false false None).
    set (tr' := tr ++ _).
    destruct (e (awaited it tr')) as [v|x] eqn:He.
    + destruct (as_buffer v) as [|b bs] eqn:Hb.
      * rewrite (Stream.call_next_end e it tr' eq_refl eq_refl He Hb). cbn [fst snd].
        unfold upto_await. simpl. rewrite <- app_assoc. eexists. reflexivity.
      * assert (as_buffer v <> []) as Hne by congruence.
        rewrite (Stream.call_next_chunk e it tr' eq_refl eq_refl He Hne). cbn [fst snd].
        unfold upto_await. simpl. rewrite <- app_assoc. eexists. reflexivity.
    + rewrite (Stream.call_next_rejected e it tr' eq_refl eq_refl He). cbn [fst snd].
      unfold upto_await. simpl. rewrite <- app_assoc. eexists. reflexivity.
Qed.
End WithArrow.

(** With the recording reader, which reads on until it holds eight bytes, a
    header of six bytes makes [send] fetch before it returns: the fetch of
    the first chunk, and the prefetch that follows it. *)
Example short_header_is_read_on :
  let e := scripted [Fulfilled (VBuffer (bytes "HEADER"));
                     Fulfilled (VBuffer (bytes "first chunk"))] in
  let stmt := AsyncPreparedStatement.constructor (Worker 0) 1 7 in
  let sent := run e (AsyncPreparedStatement.send (arrow := MockArrow.arrow) []) stmt [] in
  requests (snd (fst sent)) =
    [mkRequest (Worker 0) (Binding.sendPrepared 1 7 []);
     mkRequest (Worker 0) (Binding.fetchQueryResults 1);
     mkRequest (Worker 0) (Binding.fetchQueryResults 1)]
  /\ snd sent =
       Returned (mkReader (arrow := MockArrow.arrow)
                   (AsyncResultStreamIterator.mk (Worker 0) 1 (bytes "HEADER")
                      false false (Some 2))
                   (bytes "HEADERfirst chunk")).
Proof. cbv zeta. split; reflexivity. Qed.

(** X15.  [close], [insertArrowFromIPCStream], [insertCSVFromPath] and
    [insertJSONFromPath] each issue one request that carries their arguments
    unchanged on the identifier of this connection, await it, and end as it
    ends: a rejection comes back as the failure of the method, with the same
    error, and the connection object is as before. *)
Theorem one_shot_calls (e : Engine) (c : AsyncDuckDBConnection.t) (tr : Trace) :
  let db := AsyncDuckDBConnection._bindings c in
  let conn := AsyncDuckDBConnection._conn c in
  let p := issued tr in
  let exchange (call : Binding.Call) : AsyncDuckDBConnection.t * Trace * Outcome unit :=
    (c, tr ++ [EvIssue p (mkRequest db call); EvSettle p (e p)], settle_unit (e p)) in
  run e AsyncDuckDBConnection.close c tr = exchange (Binding.disconnect conn)
  /\ (forall buffer options,
        run e (AsyncDuckDBConnection.insertArrowFromIPCStream buffer options) c tr =
          exchange (Binding.insertArrowFromIPCStream conn buffer options))
  /\ (forall text options,
        run e (AsyncDuckDBConnection.insertCSVFromPath text options) c tr =
          exchange (Binding.insertCSVFromPath conn text options))
  /\ (forall text options,
        run e (AsyncDuckDBConnection.insertJSONFromPath text options) c tr =
          exchange (Binding.insertJSONFromPath conn text options)).
Proof.
  cbv zeta. repeat split; intros;
    [ unfold AsyncDuckDBConnection.close
    | unfold AsyncDuckDBConnection.insertArrowFromIPCStream
    | unfold AsyncDuckDBConnection.insertCSVFromPath
    | unfold AsyncDuckDBConnection.insertJSONFromPath ];
    run_method; destruct (e (issued tr)); cbn [run settle_unit];
    rewrite <- !app_assoc; reflexivity.
Qed.

End Sessions.
